(** * The per-series rolling-bucket controller of tsdb (bucketedTimeSeries.go)

    A shallow embedding of [BucketedTimeSeries]: the active stream, the
    16-bit point counter, the 32-bit current bucket, the 8-bit recency
    counter and the circular array of block identifiers, with the methods
    [Reset], [open], [Put], [Get], [SetCurrentBucket], [SetQueried],
    [SetDataBlock], [HasDataPoints], [GetQueriedBucketsAgo], [GetCategory]
    and [SetCategory].

    The two collaborators whose code lives elsewhere in the package, the
    compressed point stream ([Series]) and the block store ([BucketStorage]),
    are interfaces here; every call that reaches the block store is recorded
    in a call log, so that "no store call is made" is a statement about the
    log. *)

From Stdlib Require Import ZArith List Lia String.
From Stdlib.Strings Require Import Byte.
From stdpp Require Import base list gmap.

Open Scope Z_scope.

(** ** Machine integers *)

(** Go's unsigned integers are modelled in [Z]; arithmetic that can leave
    the range is wrapped explicitly. *)
Definition wrap8  (x : Z) : Z := x mod 2 ^ 8.
Definition wrap16 (x : Z) : Z := x mod 2 ^ 16.
Definition wrap32 (x : Z) : Z := x mod 2 ^ 32.

(** [math.MaxUint8] and its wider siblings. *)
Definition math_MaxUint8 : Z := 255.
Definition math_MaxUint16 : Z := 65535.
Definition math_MaxUint32 : Z := 4294967295.

Definition is_uint8  (x : Z) : Prop := 0 <= x <= math_MaxUint8.
Definition is_uint16 (x : Z) : Prop := 0 <= x <= math_MaxUint16.
Definition is_uint32 (x : Z) : Prop := 0 <= x <= math_MaxUint32.

(** Modelled from the spec: the helpers [MinUint32] and [MaxUint32] are
    defined in another file of the package; the spec describes their use as
    clamping [end] down and [begin] up. *)
Definition MinUint32 (a b : Z) : Z := Z.min a b.
Definition MaxUint32 (a b : Z) : Z := Z.max a b.

(** ** Outcomes and the call log *)

Definition error := string.

Inductive panic := DivideByZero | IndexOutOfRange.

(** How a method call ends: it returns, it panics (Go run-time error), or
    the fuel of a loop ran out (shown below never to happen). *)
Inductive outcome (A : Type) :=
| Return (a : A)
| Panics (p : panic)
| OutOfFuel.
Arguments Return {A} a.
Arguments Panics {A} p.
Arguments OutOfFuel {A}.

Definition bytes := list byte.

(** One entry per call made to the block store, with what it answered. *)
Inductive Event :=
| EvStore (bucket : Z) (data : bytes) (count : Z) (timeSeriesId : Z) (res : Z + error)
| EvFetch (bucket : Z) (id : Z) (res : (bytes * Z) + error).

(** ** Collaborator interfaces *)

(** A [Series] has the field [ExtraData] (the category) next to its bit
    stream [Bs]; [BitStream] stands for the bit stream together with the
    compression state. *)
Record Series (BitStream : Type) := mkSeries {
  Bs : BitStream;
  ExtraData : Z;
}.
Arguments mkSeries {BitStream}.
Arguments Bs {BitStream}.
Arguments ExtraData {BitStream}.

Definition set_ExtraData {B} (s : Series B) (c : Z) : Series B :=
  {| Bs := Bs s; ExtraData := c |}.

(** The compressed point stream. [Series_Append] returns the stream as the
    call left it together with Go's [err] ([None] is [nil]). *)
Class SeriesMethods (BitStream Value : Type) := {
  (** [NewSeries(nil)] *)
  NewSeries : Series BitStream;
  (** [Bs.Stream]: the raw bytes of the stream *)
  Stream : BitStream -> bytes;
  Series_Reset : Series BitStream -> Series BitStream;
  Series_Append : Series BitStream -> Z -> Value -> Z -> Series BitStream * option error;
  Series_ReadData : Series BitStream -> bytes;
}.

(** Methods of [BucketStorage]; [Store] and [Fetch] may change the store. *)
Class StorageMethods (BucketStorage : Type) := {
  NumBuckets : BucketStorage -> Z;
  Store : BucketStorage -> Z -> bytes -> Z -> Z -> BucketStorage * (Z + error);
  Fetch : BucketStorage -> Z -> Z -> BucketStorage * ((bytes * Z) + error);
}.

(** Package-level constants declared outside this file. *)
Class Constants := {
  INVALID_ID : Z;
  DEFAULT_CATEGORY : Z;
  MinTimestampDelta : Z;   (* TSDBConf.MinTimestampDelta *)
}.

(** ** Data *)

Record TimeValuePair (Value : Type) := mkTimeValuePair {
  Timestamp : Z;
  Value_ : Value;
}.
Arguments mkTimeValuePair {Value}.
Arguments Timestamp {Value}.
Arguments Value_ {Value}.

Record TimeSeriesBlock := mkBlock {
  Data : bytes;
  Count : Z;
}.

Record BucketedTimeSeries (BitStream : Type) := mkBTS {
  stream_ : Series BitStream;       (* current stream of data *)
  count_ : Z;                       (* uint16: points in the active bucket *)
  current_ : Z;                     (* uint32: currently active bucket *)
  queriedBucketsAgo_ : Z;           (* uint8 *)
  blocks_ : list Z;                 (* []uint64: block ids of previous data *)
}.
Arguments mkBTS {BitStream}.
Arguments stream_ {BitStream}.
Arguments count_ {BitStream}.
Arguments current_ {BitStream}.
Arguments queriedBucketsAgo_ {BitStream}.
Arguments blocks_ {BitStream}.

(** What a method call can touch: the series, the block store, and the log
    of calls made to the store so far (oldest first). *)
Record World (BitStream BucketStorage : Type) := mkWorld {
  ts : BucketedTimeSeries BitStream;
  storage : BucketStorage;
  calls : list Event;
}.
Arguments mkWorld {BitStream BucketStorage}.
Arguments ts {BitStream BucketStorage}.
Arguments storage {BitStream BucketStorage}.
Arguments calls {BitStream BucketStorage}.

Section Controller.

Context {BitStream Value BucketStorage : Type}.
Context `{SM : SeriesMethods BitStream Value}.
Context `{ST : StorageMethods BucketStorage}.
Context `{CO : Constants}.

Local Abbreviation BTS := (BucketedTimeSeries BitStream).
Local Abbreviation W := (World BitStream BucketStorage).

(** *** Field updates *)

Definition with_stream (b : BTS) (s : Series BitStream) : BTS :=
  mkBTS s (count_ b) (current_ b) (queriedBucketsAgo_ b) (blocks_ b).
Definition with_count (b : BTS) (c : Z) : BTS :=
  mkBTS (stream_ b) c (current_ b) (queriedBucketsAgo_ b) (blocks_ b).
Definition with_current (b : BTS) (c : Z) : BTS :=
  mkBTS (stream_ b) (count_ b) c (queriedBucketsAgo_ b) (blocks_ b).
Definition with_queried (b : BTS) (q : Z) : BTS :=
  mkBTS (stream_ b) (count_ b) (current_ b) q (blocks_ b).
Definition with_blocks (b : BTS) (l : list Z) : BTS :=
  mkBTS (stream_ b) (count_ b) (current_ b) (queriedBucketsAgo_ b) l.

Definition with_ts (w : W) (b : BTS) : W := mkWorld b (storage w) (calls w).

(** *** A small monad for method bodies *)

Definition M (A : Type) : Type := W -> outcome A * W.

Definition ret {A} (a : A) : M A := fun w => (Return a, w).

Definition bind {A B} (m : M A) (k : A -> M B) : M B := fun w =>
  match m w with
  | (Return a, w') => k a w'
  | (Panics p, w') => (Panics p, w')
  | (OutOfFuel, w') => (OutOfFuel, w')
  end.

Notation "x <- m ;; k" := (bind m (fun x => k))
  (at level 100, m at next level, right associativity).
Notation "m ;;; k" := (bind m (fun _ => k))
  (at level 100, right associativity).

Definition raise {A} (p : panic) : M A := fun w => (Panics p, w).
Definition out_of_fuel {A} : M A := fun w => (OutOfFuel, w).

(** Read [*b]. *)
Definition this : M BTS := fun w => (Return (ts w), w).
(** Assign to fields of [*b]. *)
Definition update (f : BTS -> BTS) : M unit := fun w => (Return tt, with_ts w (f (ts w))).

(** [x % y] on unsigned integers: a run-time panic when [y] is zero. *)
Definition umod (x y : Z) : M Z :=
  if y =? 0 then raise DivideByZero else ret (x mod y).

(** [b.blocks_[idx]]: a run-time panic when [idx] is out of range. *)
Definition get_block (idx : Z) : M Z :=
  b <- this ;;
  match blocks_ b !! Z.to_nat idx with
  | Some id => ret id
  | None => raise IndexOutOfRange
  end.

(** [b.blocks_[idx] = id]. *)
Definition set_block (idx id : Z) : M unit :=
  b <- this ;;
  if idx <? Z.of_nat (length (blocks_ b))
  then update (fun b => with_blocks b (<[Z.to_nat idx := id]> (blocks_ b)))
  else raise IndexOutOfRange.

(** [storage.NumBuckets()]. *)
Definition call_NumBuckets : M Z := fun w => (Return (NumBuckets (storage w)), w).

(** [storage.Store(bucket, data, count, timeSeriesId)], logged. *)
Definition call_Store (bucket : Z) (data : bytes) (count timeSeriesId : Z) : M (Z + error) :=
  fun w =>
    let (st', res) := Store (storage w) bucket data count timeSeriesId in
    (Return res, mkWorld (ts w) st' (calls w ++ [EvStore bucket data count timeSeriesId res])).

(** [storage.Fetch(bucket, id)], logged. *)
Definition call_Fetch (bucket id : Z) : M ((bytes * Z) + error) :=
  fun w =>
    let (st', res) := Fetch (storage w) bucket id in
    (Return res, mkWorld (ts w) st' (calls w ++ [EvFetch bucket id res])).

(** *** NewBucketedTimeSeries, Reset *)

Definition NewBucketedTimeSeries : BTS :=
  mkBTS NewSeries 0 0 0 [].

Definition Reset (n : Z) (b : BTS) : BTS :=
  {| queriedBucketsAgo_ := math_MaxUint8;
     current_ := 0;
     blocks_ := replicate (Z.to_nat n) INVALID_ID;
     count_ := 0;
     stream_ := set_ExtraData (Series_Reset (stream_ b)) DEFAULT_CATEGORY |}.

(** *** open *)

(** One turn of the loop of [open] (lines 68-87). *)
Definition open_body (timeSeriesId : Z) : M (option error) :=
  b <- this ;;
  r <- (if 0 <? count_ b
        then call_Store (current_ b) (Stream (Bs (stream_ b))) (count_ b) timeSeriesId
        else ret (inl INVALID_ID)) ;;
  match r with
  | inr err => ret (Some err)
  | inl blockId =>
      n <- call_NumBuckets ;;
      idx <- umod (current_ b) n ;;
      set_block idx blockId ;;;
      update (fun b => with_count b 0) ;;;
      update (fun b => with_stream b (Series_Reset (stream_ b))) ;;;
      update (fun b => with_current b (wrap32 (current_ b + 1))) ;;;
      update (fun b =>
                if queriedBucketsAgo_ b <? math_MaxUint8
                then with_queried b (wrap8 (queriedBucketsAgo_ b + 1))
                else b) ;;;
      ret None
  end.

(** [for b.current_ != next { ... }] *)
Fixpoint open_loop (fuel : nat) (next timeSeriesId : Z) : M (option error) :=
  b <- this ;;
  if current_ b =? next then ret None
  else match fuel with
       | O => out_of_fuel
       | S fuel' =>
           err <- open_body timeSeriesId ;;
           match err with
           | Some e => ret (Some e)
           | None => open_loop fuel' next timeSeriesId
           end
       end.

(** The loop leaves after [(next - current_) mod 2^32] turns at the latest. *)
Definition open_fuel (b : BTS) (next : Z) : nat :=
  Z.to_nat (wrap32 (next - current_ b)).

Definition open (next timeSeriesId : Z) : M (option error) :=
  b <- this ;;
  if current_ b =? 0
  then update (fun b => with_current b next) ;;; ret None
  else open_loop (open_fuel b next) next timeSeriesId.

(** *** Put *)

Definition Put (i timeSeriesId : Z) (dp : TimeValuePair Value) (category : option Z)
  : M (option error) :=
  b <- this ;;
  if i <? current_ b then ret (Some "Invalid bucket number!"%string)
  else
    err <- (if current_ b <? i then open i timeSeriesId else ret None) ;;
    match err with
    | Some e => ret (Some e)
    | None =>
        b <- this ;;
        let (s', err) := Series_Append (stream_ b) (Timestamp dp) (Value_ dp) MinTimestampDelta in
        update (fun b => with_stream b s') ;;;
        match err with
        | Some e => ret (Some e)
        | None =>
            match category with
            | Some c => update (fun b => with_stream b (set_ExtraData (stream_ b) c))
            | None => ret tt
            end ;;;
            update (fun b => with_count b (wrap16 (count_ b + 1))) ;;;
            ret None
        end
    end.

(** *** Get *)

(** [for i := begin; i <= end; i++ { ... }] (lines 150-162). *)
Fixpoint Get_loop (fuel : nat) (n i end_ : Z) (out : list TimeSeriesBlock)
  : M (list TimeSeriesBlock) :=
  if i <=? end_ then
    match fuel with
    | O => out_of_fuel
    | S fuel' =>
        idx <- umod i n ;;
        id <- get_block idx ;;
        r <- call_Fetch i id ;;
        let out' := match r with
                    | inl (data, count) => out ++ [mkBlock data count]
                    | inr _ => out
                    end in
        Get_loop fuel' n (wrap32 (i + 1)) end_ out'
    end
  else ret out.

Definition Get (begin end_ : Z) : M (list TimeSeriesBlock * option error) :=
  n <- call_NumBuckets ;;
  b <- this ;;
  let getCurrent := (begin <=? current_ b) && (current_ b <=? end_) in
  let end1 := if 1 <=? current_ b
              then MinUint32 end_ (wrap32 (current_ b - 1))
              else MinUint32 end_ 0 in
  let begin1 := if n <=? current_ b
                then MaxUint32 begin (wrap32 (current_ b - n))
                else MaxUint32 begin 0 in
  out <- Get_loop (Z.to_nat (end1 - begin1 + 1)) n begin1 end1 [] ;;
  let out := if getCurrent
             then out ++ [{| Count := count_ b; Data := Series_ReadData (stream_ b) |}]
             else out in
  ret (out, None).

(** *** The auxiliary operations *)

Definition SetCurrentBucket (currentBucket timeSeriesId : Z) : M (option error) :=
  b <- this ;;
  if current_ b <? currentBucket
  then open currentBucket timeSeriesId
  else ret None.

Definition SetQueried : M unit :=
  update (fun b => with_queried b 0).

Definition SetDataBlock (position numBuckets id : Z) : M unit :=
  b <- this ;;
  (if current_ b <=? position
   then update (fun b => with_current b (wrap32 (position + 1))) ;;;
        update (fun b => with_count b 0) ;;;
        update (fun b => with_stream b (Series_Reset (stream_ b)))
   else ret tt) ;;;
  idx <- umod position numBuckets ;;
  set_block idx id.

(** [for i := 0; i < int(numBuckets); i++ { ... }]: [k] turns are left,
    the next one reads slot [i]. *)
Fixpoint HasDataPoints_loop (k : nat) (i : Z) : M bool :=
  match k with
  | O => ret false
  | S k' =>
      id <- get_block i ;;
      if id =? INVALID_ID then HasDataPoints_loop k' (i + 1) else ret true
  end.

Definition HasDataPoints (numBuckets : Z) : M bool :=
  b <- this ;;
  if 0 <? count_ b then ret true
  else HasDataPoints_loop (Z.to_nat numBuckets) 0.

Definition GetQueriedBucketsAgo : M Z :=
  b <- this ;; ret (queriedBucketsAgo_ b).

Definition GetCategory : M Z :=
  b <- this ;; ret (ExtraData (stream_ b)).

Definition SetCategory (category : Z) : M unit :=
  update (fun b => with_stream b (set_ExtraData (stream_ b) category)).

(** *** Calls as data *)

(** The operations available after construction, for statements about
    every operation and about sequences of calls. *)
Inductive Call :=
| CPut (i timeSeriesId : Z) (dp : TimeValuePair Value) (category : option Z)
| CGet (begin end_ : Z)
| CSetCurrentBucket (currentBucket timeSeriesId : Z)
| CSetQueried
| CSetDataBlock (position numBuckets id : Z)
| CHasDataPoints (numBuckets : Z)
| CGetQueriedBucketsAgo
| CGetCategory
| CSetCategory (category : Z).

(** The world after a call, whatever its outcome. *)
Definition after {A} (m : M A) (w : W) : W := snd (m w).

Definition exec (c : Call) (w : W) : W :=
  match c with
  | CPut i t dp cat => after (Put i t dp cat) w
  | CGet b e => after (Get b e) w
  | CSetCurrentBucket i t => after (SetCurrentBucket i t) w
  | CSetQueried => after SetQueried w
  | CSetDataBlock p n id => after (SetDataBlock p n id) w
  | CHasDataPoints n => after (HasDataPoints n) w
  | CGetQueriedBucketsAgo => after GetQueriedBucketsAgo w
  | CGetCategory => after GetCategory w
  | CSetCategory c => after (SetCategory c) w
  end.

Definition exec_all (cs : list Call) (w : W) : W :=
  fold_left (fun w c => exec c w) cs w.

(** The arguments of a call fit their Go types. *)
Definition call_in_range (c : Call) : Prop :=
  match c with
  | CPut i t _ _ => is_uint32 i /\ is_uint32 t
  | CGet b e => is_uint32 b /\ is_uint32 e
  | CSetCurrentBucket i t => is_uint32 i /\ is_uint32 t
  | CSetDataBlock p n _ => is_uint32 p /\ is_uint8 n
  | CHasDataPoints n => is_uint8 n
  | _ => True
  end.

(** The bucket number a write-path call passes, if any. *)
Definition bucket_of (c : Call) : option Z :=
  match c with
  | CPut i _ _ _ => Some i
  | CSetCurrentBucket i _ => Some i
  | _ => None
  end.

End Controller.

(** ** Vocabulary of the specification *)

Section Vocabulary.

Context {BitStream Value BucketStorage : Type}.
Context `{SM : SeriesMethods BitStream Value}.
Context `{ST : StorageMethods BucketStorage}.
Context `{CO : Constants}.

(** The recency counter after one rotation step (lines 85-87). *)
Definition age (q : Z) : Z :=
  if q <? math_MaxUint8 then wrap8 (q + 1) else q.

(** One completed rotation step as the specification words it: the
    identifier goes into slot [current mod capacity], the active stream and
    the counter are reset, the current bucket moves on by one, and the
    recency counter ages. *)
Definition rotate (b : BucketedTimeSeries BitStream) (id n : Z) : BucketedTimeSeries BitStream :=
  {| stream_ := Series_Reset (stream_ b);
     count_ := 0;
     current_ := wrap32 (current_ b + 1);
     queriedBucketsAgo_ := age (queriedBucketsAgo_ b);
     blocks_ := <[Z.to_nat (current_ b mod n) := id]> (blocks_ b) |}.

(** The calls a method made: what the log gained between two worlds. *)
Definition new_calls (w w' : World BitStream BucketStorage) : list Event :=
  drop (length (calls w)) (calls w').

(** The identifier a stretch of the log produced for bucket [j]: the one the
    store returned for it, the invalid identifier when the store was not
    asked. *)
Fixpoint produced_id (log : list Event) (j : Z) : Z :=
  match log with
  | [] => INVALID_ID
  | EvStore bucket _ _ _ (inl id) :: log' =>
      if bucket =? j then id else produced_id log' j
  | _ :: log' => produced_id log' j
  end.

(** The buckets a stretch of the log stored, in call order. *)
Definition store_buckets (log : list Event) : list Z :=
  flat_map (fun ev => match ev with EvStore b _ _ _ _ => [b] | _ => [] end) log.

(** What a completed turn did with the block store: nothing when the
    bucket was empty, one [Store] call otherwise. *)
Definition flushed (tsid : Z) (w w' : World BitStream BucketStorage) (id : Z) : Prop :=
  (count_ (ts w) <= 0 /\ id = INVALID_ID /\ storage w' = storage w /\ calls w' = calls w)
  \/ (0 < count_ (ts w) /\
      Store (storage w) (current_ (ts w)) (Stream (Bs (stream_ (ts w)))) (count_ (ts w)) tsid
        = (storage w', inl id) /\
      calls w' = calls w ++
        [EvStore (current_ (ts w)) (Stream (Bs (stream_ (ts w)))) (count_ (ts w)) tsid (inl id)]).

(** The buckets a stretch of the log fetched, in call order. *)
Definition fetch_buckets (log : list Event) : list Z :=
  flat_map (fun ev => match ev with EvFetch b _ _ => [b] | _ => [] end) log.

(** The blocks a stretch of the log fetched successfully, in call order. *)
Definition fetched (log : list Event) : list TimeSeriesBlock :=
  flat_map (fun ev => match ev with
                      | EvFetch _ _ (inl (data, count)) => [mkBlock data count]
                      | _ => []
                      end) log.

(** The bounds of the historical part of a read as the specification words
    them: [end] clamped to [current - 1] (to 0 while [current] is 0), [begin]
    clamped up to [current - capacity] (to 0 when that would be negative). *)
Definition clamp_end (current end_ : Z) : Z :=
  Z.min end_ (if 1 <=? current then current - 1 else 0).
Definition clamp_begin (current n begin : Z) : Z :=
  Z.max begin (if n <=? current then current - n else 0).

(** The live bucket as a result element. *)
Definition live (b : BucketedTimeSeries BitStream) : TimeSeriesBlock :=
  {| Data := Series_ReadData (stream_ b); Count := count_ b |}.

(** The largest bucket number a list of write-path calls passed. *)
Definition max_bucket (cs : list (Call (Value := Value))) : Z :=
  fold_right Z.max 0 (omap bucket_of cs).

(** The store reports the same number of buckets after a [Store]. *)
Definition stable_capacity : Prop :=
  forall st bucket data count tsid,
    NumBuckets (fst (Store st bucket data count tsid)) = NumBuckets st.

End Vocabulary.

(** ** A concrete stream and store *)

(** A small instance of the two collaborators, used to run the controller
    on concrete inputs: the stream keeps its points in a list, the store
    keeps the blocks it was given in a list and hands out their positions
    as identifiers. *)
Module Sample.

Definition byte_of (x : Z) : byte :=
  match Byte.of_N (Z.to_N (x mod 256)) with
  | Some b => b
  | None => x00
  end.

Definition last_timestamp (l : list (Z * Z)) : option Z :=
  fst <$> last l.

#[export] Instance series : SeriesMethods (list (Z * Z)) Z := {|
  NewSeries := mkSeries [] 0;
  Stream := fun l => map (fun p => byte_of (fst p)) l;
  Series_Reset := fun s => mkSeries [] (ExtraData s);
  Series_Append := fun s t v delta =>
    match last_timestamp (Bs s) with
    | Some t0 => if t - t0 <? delta
                 then (s, Some "timestamp too close"%string)
                 else (mkSeries (Bs s ++ [(t, v)]) (ExtraData s), None)
    | None => (mkSeries (Bs s ++ [(t, v)]) (ExtraData s), None)
    end;
  Series_ReadData := fun s => map (fun p => byte_of (fst p)) (Bs s);
|}.

Record store := mkStore {
  capacity : Z;
  held : list (Z * bytes * Z);
}.

#[export] Instance bucket_storage : StorageMethods store := {|
  NumBuckets := capacity;
  Store := fun st bucket data count _ =>
    (mkStore (capacity st) (held st ++ [(bucket, data, count)]),
     inl (Z.of_nat (length (held st)) + 1));
  Fetch := fun st bucket id =>
    (st,
     if id <=? 0 then inr "invalid id"%string
     else match held st !! Z.to_nat (id - 1) with
          | Some (b, data, count) =>
              if b =? bucket then inl (data, count) else inr "wrong bucket"%string
          | None => inr "no such block"%string
          end);
|}.

#[export] Instance constants : Constants := {|
  INVALID_ID := 0;
  DEFAULT_CATEGORY := 0;
  MinTimestampDelta := 30;
|}.

Definition world := World (list (Z * Z)) store.

(** A series reset with three historical buckets, before any call. *)
Definition fresh : world :=
  mkWorld (Reset 3 NewBucketedTimeSeries) (mkStore 3 []) [].

Definition point (t v : Z) : TimeValuePair Z := mkTimeValuePair t v.

(** The scenario of the specification: a write to bucket 5, then one to
    bucket 7. *)
Definition after_put5 : world := after (Put 5 1 (point 100 1) None) fresh.
Definition after_put7 : world := after (Put 7 1 (point 200 2) None) after_put5.
Definition after_put8 : world := after (Put 8 1 (point 300 3) None) after_put7.

(** The series moved to bucket 5 without any write. *)
Definition idle5 : world := after (SetCurrentBucket 5 1) fresh.

(** Bucket 5 open with one point, just queried. *)
Definition queried5 : world := after SetQueried after_put5.

End Sample.

(** ** Facts about the controller *)

Section Facts.

Context {BitStream Value BucketStorage : Type}.
Context `{SM : SeriesMethods BitStream Value}.
Context `{ST : StorageMethods BucketStorage}.
Context `{CO : Constants}.

Local Abbreviation BTS := (BucketedTimeSeries BitStream).
Local Abbreviation W := (World BitStream BucketStorage).

(** Unfolds the monad and its primitives. *)
Ltac run :=
  repeat progress
    (unfold bind, ret, this, update, raise, out_of_fuel, call_NumBuckets,
       umod, get_block, set_block, call_Store, call_Fetch, with_ts in *;
     simpl in *).

Ltac wrap_lia :=
  unfold wrap8, wrap16, wrap32, is_uint8, is_uint16, is_uint32,
    math_MaxUint8, math_MaxUint16, math_MaxUint32, MinUint32, MaxUint32 in *;
  simpl in *;
  repeat match goal with
         | |- context [2 ^ 8] => change (2 ^ 8) with 256
         | |- context [2 ^ 16] => change (2 ^ 16) with 65536
         | |- context [2 ^ 32] => change (2 ^ 32) with 4294967296
         | H : context [2 ^ 8] |- _ => change (2 ^ 8) with 256 in H
         | H : context [2 ^ 16] |- _ => change (2 ^ 16) with 65536 in H
         | H : context [2 ^ 32] |- _ => change (2 ^ 32) with 4294967296 in H
         end;
  Z.div_mod_to_equations; lia.

Lemma wrap32_id x : is_uint32 x -> wrap32 x = x.
Proof. intros H. unfold wrap32. apply Z.mod_small. wrap_lia. Qed.

Lemma wrap32_range x : is_uint32 (wrap32 x).
Proof. wrap_lia. Qed.

(** *** One turn of the rotation loop *)

Lemma open_body_cases tsid (w : W) r w' :
  open_body tsid w = (r, w') ->
  (exists id,
      r = Return None /\
      ts w' = rotate (ts w) id (NumBuckets (storage w')) /\
      NumBuckets (storage w') <> 0 /\
      current_ (ts w) mod NumBuckets (storage w') < Z.of_nat (length (blocks_ (ts w))) /\
      flushed tsid w w' id)
  \/ (((exists e, r = Return (Some e)) \/ (exists p, r = Panics p)) /\ ts w' = ts w).
Proof.
  unfold open_body. run. unfold flushed.
  assert (Hrot : forall id n,
    (if queriedBucketsAgo_ (ts w) <? math_MaxUint8
     then with_queried
            (with_current
               (with_stream (with_count (with_blocks (ts w)
                  (<[Z.to_nat (current_ (ts w) mod n) := id]> (blocks_ (ts w)))) 0)
                  (Series_Reset (stream_ (ts w))))
               (wrap32 (current_ (ts w) + 1)))
            (wrap8 (queriedBucketsAgo_ (ts w) + 1))
     else with_current
            (with_stream (with_count (with_blocks (ts w)
               (<[Z.to_nat (current_ (ts w) mod n) := id]> (blocks_ (ts w)))) 0)
               (Series_Reset (stream_ (ts w))))
            (wrap32 (current_ (ts w) + 1)))
    = rotate (ts w) id n).
  { intros id n. unfold rotate, age, with_queried, with_current, with_stream,
      with_count, with_blocks. simpl.
    destruct (queriedBucketsAgo_ (ts w) <? math_MaxUint8); reflexivity. }
  destruct (0 <? count_ (ts w)) eqn:Hc.
  - destruct (Store _ _ _ _ _) as [st' [id|e]] eqn:HS; simpl.
    + destruct (NumBuckets st' =? 0) eqn:Hn; simpl.
      { intros [= <- <-]. right. split; [right; eauto | reflexivity]. }
      match goal with |- context [?a <? Z.of_nat ?l] => destruct (a <? Z.of_nat l) eqn:Hi end;
        simpl.
      * intros [= <- <-]. left. exists id. simpl.
        split; [reflexivity|]. split; [apply Hrot|]. split; [lia|]. split; [lia|].
        right. split; [lia|]. split; reflexivity.
      * intros [= <- <-]. right. split; [right; eauto | reflexivity].
    + intros [= <- <-]. right. split; [left; eauto | reflexivity].
  - destruct (NumBuckets (storage w) =? 0) eqn:Hn; simpl.
    { intros [= <- <-]. right. split; [right; eauto | reflexivity]. }
    match goal with |- context [?a <? Z.of_nat ?l] => destruct (a <? Z.of_nat l) eqn:Hi end;
      simpl.
    + intros [= <- <-]. left. exists INVALID_ID. simpl.
      split; [reflexivity|]. split; [apply Hrot|]. split; [lia|]. split; [lia|].
      left. split; [lia|]. repeat split; reflexivity.
    + intros [= <- <-]. right. split; [right; eauto | reflexivity].
Qed.

(** *** The rotation loop *)

(** A property kept by every turn holds when the loop is left, however it
    is left. *)
Lemma open_loop_inv (I : W -> Prop) next tsid :
  (forall w r w', I w -> current_ (ts w) <> next -> open_body tsid w = (r, w') -> I w') ->
  forall fuel w r w', I w -> open_loop fuel next tsid w = (r, w') -> I w'.
Proof.
  intros Hstep. induction fuel as [|fuel IH]; intros w r w' HI; simpl; run.
  - destruct (current_ (ts w) =? next); intros [= <- <-]; exact HI.
  - destruct (current_ (ts w) =? next) eqn:Hcur; [intros [= <- <-]; exact HI|].
    destruct (open_body tsid w) as [[[e|]|p|] w1] eqn:Hb; simpl.
    + intros [= <- <-]. eapply Hstep; eauto. lia.
    + intros Hl. eapply IH; [|exact Hl]. eapply Hstep; eauto. lia.
    + intros [= <- <-]. eapply Hstep; eauto. lia.
    + intros [= <- <-]. eapply Hstep; eauto. lia.
Qed.

(** When the loop returns without error the target bucket is reached. *)
Lemma open_loop_done next tsid fuel : forall (w w' : W),
  open_loop fuel next tsid w = (Return None, w') -> current_ (ts w') = next.
Proof.
  induction fuel as [|fuel IH]; intros w w'; simpl; run.
  - destruct (current_ (ts w) =? next) eqn:Hcur; intros [= <-]; lia.
  - destruct (current_ (ts w) =? next) eqn:Hcur; [intros [= <-]; lia|].
    destruct (open_body tsid w) as [[[e|]|p|] w1] eqn:Hb; simpl; try discriminate.
    apply IH.
Qed.

(** A turn never runs out of fuel: it has no loop of its own. *)
Lemma open_body_fuel tsid (w : W) w' : open_body tsid w <> (OutOfFuel, w').
Proof.
  intros H. apply open_body_cases in H as [(id & H & _)|[[[e H]|[p H]] _]]; discriminate.
Qed.

(** The loop leaves within [(next - current_) mod 2^32] turns. *)
Lemma open_loop_fuel next tsid : forall fuel (w : W) r w',
  is_uint32 next -> is_uint32 (current_ (ts w)) ->
  wrap32 (next - current_ (ts w)) <= Z.of_nat fuel ->
  open_loop fuel next tsid w = (r, w') -> r <> OutOfFuel.
Proof.
  induction fuel as [|fuel IH]; intros w r w' Hn Hc Hf; simpl; run.
  - destruct (current_ (ts w) =? next) eqn:Hcur; [intros [= <- <-]; discriminate|].
    exfalso. wrap_lia.
  - destruct (current_ (ts w) =? next) eqn:Hcur; [intros [= <- <-]; discriminate|].
    destruct (open_body tsid w) as [[[e|]|p|] w1] eqn:Hb; simpl.
    + intros [= <- <-]; discriminate.
    + apply open_body_cases in Hb as [(id & _ & Hts & _)|[[[e H]|[p H]] _]];
        try discriminate.
      apply IH; auto; rewrite Hts; simpl; [apply wrap32_range|]. wrap_lia.
    + intros [= <- <-]; discriminate.
    + exfalso. eapply open_body_fuel; eauto.
Qed.

(** *** Unfolding [open] *)

Lemma open_sentinel next tsid (w : W) :
  current_ (ts w) = 0 ->
  open next tsid w = (Return None, with_ts w (with_current (ts w) next)).
Proof. intros H. unfold open. run. rewrite H. reflexivity. Qed.

Lemma open_loop_S fuel next tsid (w : W) :
  open_loop (S fuel) next tsid w =
  if current_ (ts w) =? next then (Return None, w)
  else match open_body tsid w with
       | (Return None, w1) => open_loop fuel next tsid w1
       | (Return (Some e), w1) => (Return (Some e), w1)
       | (Panics p, w1) => (Panics p, w1)
       | (OutOfFuel, w1) => (OutOfFuel, w1)
       end.
Proof.
  simpl. run. destruct (current_ (ts w) =? next); [reflexivity|].
  destruct (open_body tsid w) as [[[e|]|p|] w1]; reflexivity.
Qed.

Lemma open_here next tsid (w : W) :
  current_ (ts w) = next -> next <> 0 ->
  open next tsid w = (Return None, w).
Proof.
  intros H H0. unfold open. run.
  destruct (current_ (ts w) =? 0) eqn:E; [lia|].
  destruct (open_fuel (ts w) next); simpl; run;
    destruct (current_ (ts w) =? next) eqn:E'; try reflexivity; lia.
Qed.

Lemma open_step next tsid (w : W) :
  0 < current_ (ts w) -> current_ (ts w) < next -> next <= math_MaxUint32 ->
  open next tsid w =
  match open_body tsid w with
  | (Return None, w1) => open next tsid w1
  | (Return (Some e), w1) => (Return (Some e), w1)
  | (Panics p, w1) => (Panics p, w1)
  | (OutOfFuel, w1) => (OutOfFuel, w1)
  end.
Proof.
  intros H0 Hlt Hmax. unfold open at 1. run.
  destruct (current_ (ts w) =? 0) eqn:E; [lia|].
  assert (Hf : open_fuel (ts w) next = S (Z.to_nat (next - current_ (ts w) - 1))).
  { unfold open_fuel. rewrite wrap32_id by wrap_lia. lia. }
  rewrite Hf, open_loop_S.
  destruct (current_ (ts w) =? next) eqn:E'; [lia|].
  destruct (open_body tsid w) as [[[e|]|p|] w1] eqn:Hb; try reflexivity.
  apply open_body_cases in Hb as [(id & _ & Hts & _)|[[[e H]|[p H]] _]];
    try discriminate.
  assert (Hc1 : current_ (ts w1) = current_ (ts w) + 1).
  { rewrite Hts. simpl. apply wrap32_id. wrap_lia. }
  unfold open. run. rewrite Hc1.
  destruct (current_ (ts w) + 1 =? 0) eqn:E0; [lia|].
  unfold open_fuel. rewrite Hc1, wrap32_id by wrap_lia.
  f_equal. lia.
Qed.

(** *** What one turn does *)

Lemma open_body_empty tsid (w : W) :
  count_ (ts w) <= 0 ->
  NumBuckets (storage w) <> 0 ->
  current_ (ts w) mod NumBuckets (storage w) < Z.of_nat (length (blocks_ (ts w))) ->
  open_body tsid w =
  (Return None, with_ts w (rotate (ts w) INVALID_ID (NumBuckets (storage w)))).
Proof.
  intros Hc Hn Hi.
  destruct (open_body tsid w) as [r w'] eqn:Hb.
  pose proof Hb as Hb'. unfold open_body in Hb'. run.
  destruct (0 <? count_ (ts w)) eqn:E; [lia|].
  destruct (NumBuckets (storage w) =? 0) eqn:En; [lia|]. simpl in Hb'.
  match type of Hb' with context [?a <? Z.of_nat ?l] =>
    destruct (a <? Z.of_nat l) eqn:Ei; [|lia] end.
  simpl in Hb'. injection Hb' as <- <-. f_equal. f_equal.
  unfold rotate, age, with_queried, with_current, with_stream, with_count, with_blocks.
  simpl. destruct (queriedBucketsAgo_ (ts w) <? math_MaxUint8); reflexivity.
Qed.

Lemma open_body_flush tsid (w : W) st' id :
  0 < count_ (ts w) ->
  Store (storage w) (current_ (ts w)) (Stream (Bs (stream_ (ts w)))) (count_ (ts w)) tsid
    = (st', inl id) ->
  NumBuckets st' <> 0 ->
  current_ (ts w) mod NumBuckets st' < Z.of_nat (length (blocks_ (ts w))) ->
  open_body tsid w =
  (Return None,
   mkWorld (rotate (ts w) id (NumBuckets st')) st'
     (calls w ++ [EvStore (current_ (ts w)) (Stream (Bs (stream_ (ts w))))
                    (count_ (ts w)) tsid (inl id)])).
Proof.
  intros Hc HS Hn Hi.
  destruct (open_body tsid w) as [r w'] eqn:Hb.
  pose proof Hb as Hb'. unfold open_body in Hb'. run.
  destruct (0 <? count_ (ts w)) eqn:E; [|lia].
  rewrite HS in Hb'. simpl in Hb'.
  destruct (NumBuckets st' =? 0) eqn:En; [lia|]. simpl in Hb'.
  match type of Hb' with context [?a <? Z.of_nat ?l] =>
    destruct (a <? Z.of_nat l) eqn:Ei; [|lia] end.
  simpl in Hb'. injection Hb' as <- <-. f_equal. f_equal.
  unfold rotate, age, with_queried, with_current, with_stream, with_count, with_blocks.
  simpl. destruct (queriedBucketsAgo_ (ts w) <? math_MaxUint8); reflexivity.
Qed.

Lemma open_body_store_fails tsid (w : W) st' e :
  0 < count_ (ts w) ->
  Store (storage w) (current_ (ts w)) (Stream (Bs (stream_ (ts w)))) (count_ (ts w)) tsid
    = (st', inr e) ->
  open_body tsid w =
  (Return (Some e),
   mkWorld (ts w) st'
     (calls w ++ [EvStore (current_ (ts w)) (Stream (Bs (stream_ (ts w))))
                    (count_ (ts w)) tsid (inr e)])).
Proof.
  intros Hc HS. unfold open_body. run.
  destruct (0 <? count_ (ts w)) eqn:E; [|lia].
  rewrite HS. reflexivity.
Qed.

(** *** Rotating across empty buckets *)

Lemma slot_in_range (c n : Z) (l : list Z) :
  0 < n <= Z.of_nat (length l) -> (Z.to_nat (c mod n) < length l)%nat.
Proof.
  intros H. pose proof (Z.mod_pos_bound c n ltac:(lia)). lia.
Qed.

Lemma open_gap (k : nat) : forall (w : W) tsid,
  0 < current_ (ts w) -> count_ (ts w) = 0 ->
  current_ (ts w) + Z.of_nat k <= math_MaxUint32 ->
  0 < NumBuckets (storage w) <= Z.of_nat (length (blocks_ (ts w))) ->
  exists w',
    open (current_ (ts w) + Z.of_nat k) tsid w = (Return None, w') /\
    current_ (ts w') = current_ (ts w) + Z.of_nat k /\
    count_ (ts w') = 0 /\
    storage w' = storage w /\
    calls w' = calls w /\
    length (blocks_ (ts w')) = length (blocks_ (ts w)) /\
    (forall i, blocks_ (ts w) !! i = Some INVALID_ID ->
               blocks_ (ts w') !! i = Some INVALID_ID) /\
    (forall j, current_ (ts w) <= j < current_ (ts w) + Z.of_nat k ->
               blocks_ (ts w') !! Z.to_nat (j mod NumBuckets (storage w)) = Some INVALID_ID).
Proof.
  induction k as [|k IH]; intros w tsid Hpos Hcnt Hmax Hn.
  - exists w. rewrite Z.add_0_r. rewrite open_here by lia.
    repeat split; auto. intros j Hj. lia.
  - pose proof (slot_in_range (current_ (ts w)) _ _ Hn) as Hslot.
    set (w1 := with_ts w (rotate (ts w) INVALID_ID (NumBuckets (storage w)))).
    assert (Hb : open_body tsid w = (Return None, w1)).
    { apply open_body_empty; [lia|lia|].
      pose proof (Z.mod_pos_bound (current_ (ts w)) (NumBuckets (storage w))). lia. }
    assert (Hc1 : current_ (ts w1) = current_ (ts w) + 1).
    { simpl. apply wrap32_id. wrap_lia. }
    destruct (IH w1 tsid) as (w' & Ho & Hcur & Hcnt' & Hst & Hcalls & Hlen & Hkeep & Hnew).
    + lia.
    + reflexivity.
    + lia.
    + simpl. rewrite length_insert. exact Hn.
    + exists w'. rewrite open_step by lia. rewrite Hb.
      replace (current_ (ts w) + Z.of_nat (S k)) with (current_ (ts w1) + Z.of_nat k) by lia.
      split; [exact Ho|]. split; [lia|]. split; [exact Hcnt'|].
      split; [exact Hst|]. split; [exact Hcalls|].
      split; [rewrite Hlen; simpl; apply length_insert|].
      assert (Hw1 : forall i, blocks_ (ts w) !! i = Some INVALID_ID ->
                              blocks_ (ts w1) !! i = Some INVALID_ID).
      { intros i Hi. simpl.
        destruct (decide (i = Z.to_nat (current_ (ts w) mod NumBuckets (storage w)))) as [->|Hne].
        - apply list_lookup_insert_eq. exact Hslot.
        - rewrite list_lookup_insert_ne by congruence. exact Hi. }
      split; [intros i Hi; apply Hkeep, Hw1, Hi|].
      intros j Hj. destruct (decide (j = current_ (ts w))) as [->|Hne].
      * apply Hkeep. simpl. apply list_lookup_insert_eq. exact Hslot.
      * apply (Hnew j). lia.
Qed.

(** *** Bounds kept by the rotation loop *)

Lemma age_spec q : is_uint8 q -> age q = Z.min (q + 1) math_MaxUint8.
Proof.
  intros H. unfold age. destruct (q <? math_MaxUint8) eqn:E; wrap_lia.
Qed.

Lemma open_loop_bounds next tsid fuel (w : W) r w' :
  0 <= current_ (ts w) <= next -> next <= math_MaxUint32 ->
  is_uint8 (queriedBucketsAgo_ (ts w)) ->
  open_loop fuel next tsid w = (r, w') ->
  current_ (ts w) <= current_ (ts w') <= next /\
  queriedBucketsAgo_ (ts w') =
    Z.min (queriedBucketsAgo_ (ts w) + (current_ (ts w') - current_ (ts w))) math_MaxUint8.
Proof.
  intros Hc Hmax Hq Hl.
  set (I := fun w1 : W =>
    current_ (ts w) <= current_ (ts w1) <= next /\
    queriedBucketsAgo_ (ts w1) =
      Z.min (queriedBucketsAgo_ (ts w) + (current_ (ts w1) - current_ (ts w))) math_MaxUint8).
  apply (open_loop_inv I next tsid) with (fuel := fuel) (w := w) (r := r); auto.
  - intros w1 r1 w2 [Hb Hq1] Hne Hbody.
    apply open_body_cases in Hbody as [(id & _ & Hts & _)|[_ Hts]]; unfold I; rewrite Hts.
    + simpl. rewrite wrap32_id by wrap_lia. split; [lia|].
      rewrite age_spec by (rewrite Hq1; wrap_lia). rewrite Hq1. wrap_lia.
    + split; assumption.
  - unfold I. split; [lia|]. wrap_lia.
Qed.

Lemma open_bounds next tsid (w : W) r w' :
  0 <= current_ (ts w) <= next -> next <= math_MaxUint32 ->
  open next tsid w = (r, w') ->
  r <> OutOfFuel /\ current_ (ts w) <= current_ (ts w') <= next.
Proof.
  intros Hc Hmax. unfold open. run.
  destruct (current_ (ts w) =? 0) eqn:E.
  - intros [= <- <-]. simpl. split; [discriminate|lia].
  - intros Hl. split.
    + eapply (open_loop_fuel next tsid _ w r w');
        [wrap_lia | wrap_lia | | exact Hl].
      unfold open_fuel. destruct (wrap32_range (next - current_ (ts w))). lia.
    + set (I := fun w1 : W => current_ (ts w) <= current_ (ts w1) <= next).
      apply (open_loop_inv I next tsid) with (fuel := open_fuel (ts w) next) (w := w) (r := r);
        auto; [|unfold I; lia].
      intros w1 r1 w2 Hb Hne Hbody.
      apply open_body_cases in Hbody as [(id & _ & Hts & _)|[_ Hts]]; unfold I; rewrite Hts.
      * simpl. rewrite wrap32_id by (unfold I in Hb; wrap_lia). unfold I in Hb. lia.
      * exact Hb.
Qed.

(** *** The slots after a rotation *)

Lemma produced_id_absent log j :
  Forall (fun b => b <> j) (store_buckets log) -> produced_id log j = INVALID_ID.
Proof.
  induction log as [|[b d c t [id|e]|b id r] log IH]; simpl; intros H; auto.
  - inversion H; subst. destruct (b =? j) eqn:E; [lia|auto].
  - inversion H; subst. auto.
Qed.

Lemma produced_id_snoc_other log b d c t r j :
  b <> j -> produced_id (log ++ [EvStore b d c t r]) j = produced_id log j.
Proof.
  intros Hne.
  induction log as [|[b' d' c' t' [id'|e']|b' id' r'] log IH]; simpl; auto.
  - destruct r; [destruct (b =? j) eqn:E; [lia|]|]; reflexivity.
  - destruct (b' =? j); auto.
Qed.

Lemma produced_id_snoc_new log b d c t id :
  Forall (fun b' => b' <> b) (store_buckets log) ->
  produced_id (log ++ [EvStore b d c t (inl id)]) b = id.
Proof.
  induction log as [|[b' d' c' t' [id'|e']|b' id' r'] log IH]; simpl; intros H; auto.
  - rewrite Z.eqb_refl. reflexivity.
  - inversion H; subst. destruct (b' =? b) eqn:E; [lia|auto].
  - inversion H; subst. auto.
Qed.

Lemma store_buckets_snoc log b d c t r :
  store_buckets (log ++ [EvStore b d c t r]) = store_buckets log ++ [b].
Proof. unfold store_buckets. rewrite flat_map_app. reflexivity. Qed.

Lemma mod_differs (a b n : Z) : 0 < a - b < n -> a mod n <> b mod n.
Proof.
  intros H Heq.
  assert (H0 : (a - b) mod n = 0).
  { rewrite Zminus_mod, Heq, Z.sub_diag. apply Z.mod_0_l. lia. }
  rewrite Z.mod_small in H0 by lia. lia.
Qed.

Lemma open_loop_ok_inv (I : W -> Prop) next tsid :
  (forall w w', I w -> current_ (ts w) <> next ->
                open_body tsid w = (Return None, w') -> I w') ->
  forall fuel w w', I w -> open_loop fuel next tsid w = (Return None, w') -> I w'.
Proof.
  intros Hstep. induction fuel as [|fuel IH]; intros w w' HI; simpl; run.
  - destruct (current_ (ts w) =? next); intros [= <-]; exact HI.
  - destruct (current_ (ts w) =? next) eqn:Hcur; [intros [= <-]; exact HI|].
    destruct (open_body tsid w) as [[[e|]|p|] w1] eqn:Hb; simpl; try discriminate.
    intros Hl. eapply IH; [|exact Hl]. eapply Hstep; eauto. lia.
Qed.

(** After a rotation from [current_] to [next] that returned without error,
    each of the last [n] buckets closed by it has its slot holding the
    identifier produced for it. *)
Lemma open_loop_window next tsid fuel (w w' : W) :
  stable_capacity ->
  0 < NumBuckets (storage w) ->
  0 <= current_ (ts w) <= next -> next <= math_MaxUint32 ->
  open_loop fuel next tsid w = (Return None, w') ->
  exists log,
    calls w' = calls w ++ log /\
    forall j, current_ (ts w) <= j < next -> next - NumBuckets (storage w) <= j ->
      blocks_ (ts w') !! Z.to_nat (j mod NumBuckets (storage w))
        = Some (produced_id log j).
Proof.
  intros Hstable Hn Hc Hmax Hl.
  set (n := NumBuckets (storage w)) in *.
  set (I := fun w1 : W =>
    NumBuckets (storage w1) = n /\
    current_ (ts w) <= current_ (ts w1) <= next /\
    exists log,
      calls w1 = calls w ++ log /\
      Forall (fun b => b < current_ (ts w1)) (store_buckets log) /\
      forall j, current_ (ts w) <= j < current_ (ts w1) -> current_ (ts w1) - n <= j ->
        blocks_ (ts w1) !! Z.to_nat (j mod n) = Some (produced_id log j)).
  assert (HI : I w').
  { apply (open_loop_ok_inv I next tsid) with (fuel := fuel) (w := w); auto.
    - intros w1 w2 (Hn1 & Hb1 & log & Hcalls & Hsb & Hwin) Hne Hbody.
      apply open_body_cases in Hbody as [(id & _ & Hts & Hn2 & Hidx & Hfl)|[[[e H]|[p H]] _]];
        try discriminate.
      assert (Hn2' : NumBuckets (storage w2) = n).
      { destruct Hfl as [(_ & _ & -> & _)|(_ & HS & _)]; [exact Hn1|].
        rewrite <- Hn1. rewrite <- (Hstable (storage w1) (current_ (ts w1))
          (Stream (Bs (stream_ (ts w1)))) (count_ (ts w1)) tsid), HS. reflexivity. }
      rewrite Hn2' in *.
      assert (Hc2 : current_ (ts w2) = current_ (ts w1) + 1).
      { rewrite Hts. simpl. apply wrap32_id. wrap_lia. }
      assert (Hslot : (Z.to_nat (current_ (ts w1) mod n) < length (blocks_ (ts w1)))%nat).
      { pose proof (Z.mod_pos_bound (current_ (ts w1)) n Hn). lia. }
      assert (Hfresh : Forall (fun b => b <> current_ (ts w1)) (store_buckets log)).
      { eapply Forall_impl; [exact Hsb|]. simpl. intros; lia. }
      split; [exact Hn2'|]. split; [lia|].
      destruct Hfl as [(_ & -> & _ & Hcalls2)|(_ & _ & Hcalls2)].
      + exists log. split; [congruence|]. split.
        { eapply Forall_impl; [exact Hsb|]. simpl. intros; lia. }
        intros j Hj Hjn. rewrite Hts. simpl.
        destruct (decide (j = current_ (ts w1))) as [->|Hjne].
        * rewrite list_lookup_insert_eq by exact Hslot.
          rewrite produced_id_absent by exact Hfresh. reflexivity.
        * rewrite list_lookup_insert_ne.
          -- apply Hwin; lia.
          -- intros Heq. apply (mod_differs (current_ (ts w1)) j n); [lia|].
             pose proof (Z.mod_pos_bound (current_ (ts w1)) n Hn).
             pose proof (Z.mod_pos_bound j n Hn). lia.
      + eexists. split; [rewrite Hcalls2, Hcalls, <- app_assoc; reflexivity|]. split.
        { rewrite store_buckets_snoc. apply Forall_app. split.
          - eapply Forall_impl; [exact Hsb|]. simpl. intros; lia.
          - constructor; [lia|constructor]. }
        intros j Hj Hjn. rewrite Hts. simpl.
        destruct (decide (j = current_ (ts w1))) as [->|Hjne].
        * rewrite list_lookup_insert_eq by exact Hslot.
          rewrite produced_id_snoc_new by exact Hfresh. reflexivity.
        * rewrite list_lookup_insert_ne.
          -- rewrite produced_id_snoc_other by lia. apply Hwin; lia.
          -- intros Heq. apply (mod_differs (current_ (ts w1)) j n); [lia|].
             pose proof (Z.mod_pos_bound (current_ (ts w1)) n Hn).
             pose proof (Z.mod_pos_bound j n Hn). lia.
    - split; [reflexivity|]. split; [lia|].
      exists []. split; [rewrite app_nil_r; reflexivity|]. split; [constructor|].
      intros j Hj. lia. }
  destruct HI as (_ & _ & log & Hcalls & _ & Hwin).
  apply open_loop_done in Hl.
  exists log. split; [exact Hcalls|]. intros j Hj Hjn. apply Hwin; lia.
Qed.

(** *** The read loop *)

Lemma Get_loop_S fuel n i e out (w : W) :
  Get_loop (S fuel) n i e out w =
  if i <=? e then
    if n =? 0 then (Panics DivideByZero, w)
    else match blocks_ (ts w) !! Z.to_nat (i mod n) with
         | None => (Panics IndexOutOfRange, w)
         | Some id =>
             let (st', res) := Fetch (storage w) i id in
             Get_loop fuel n (wrap32 (i + 1)) e
               (match res with
                | inl (data, count) => out ++ [mkBlock data count]
                | inr _ => out
                end)
               (mkWorld (ts w) st' (calls w ++ [EvFetch i id res]))
         end
  else (Return out, w).
Proof.
  simpl. destruct (i <=? e); [|reflexivity]. run.
  destruct (n =? 0); [reflexivity|]. simpl.
  destruct (blocks_ (ts w) !! Z.to_nat (i mod n)); [|reflexivity]. simpl.
  destruct (Fetch (storage w) i z) as [st' res]. reflexivity.
Qed.

Lemma Get_loop_O n i e out (w : W) :
  Get_loop O n i e out w = if i <=? e then (OutOfFuel, w) else (Return out, w).
Proof. simpl. destruct (i <=? e); reflexivity. Qed.

(** However the loop ends, it leaves the series alone and asks the store
    only for buckets between its bounds. *)
Lemma Get_loop_log n e : forall fuel i out (w : W) r w',
  0 <= i -> e < math_MaxUint32 ->
  Get_loop fuel n i e out w = (r, w') ->
  ts w' = ts w /\
  exists log, calls w' = calls w ++ log /\
              Forall (fun b => i <= b <= e) (fetch_buckets log).
Proof.
  assert (Hnone : forall (w : W) i,
    ts w = ts w /\ exists log, calls w = calls w ++ log /\
                               Forall (fun b => i <= b <= e) (fetch_buckets log)).
  { intros w i. split; [reflexivity|]. exists []. rewrite app_nil_r.
    split; [reflexivity|constructor]. }
  induction fuel as [|fuel IH]; intros i out w r w' Hi He.
  - rewrite Get_loop_O. destruct (i <=? e); intros [= <- <-]; apply Hnone.
  - rewrite Get_loop_S. destruct (i <=? e) eqn:Hie; [|intros [= <- <-]; apply Hnone].
    destruct (n =? 0); [intros [= <- <-]; apply Hnone|].
    destruct (blocks_ (ts w) !! Z.to_nat (i mod n)) as [id|];
      [|intros [= <- <-]; apply Hnone].
    destruct (Fetch (storage w) i id) as [st' res].
    rewrite wrap32_id by wrap_lia. intros Hl.
    apply IH in Hl as (Hts & log & Hcalls & Hall); [|lia|lia]. simpl in *.
    split; [exact Hts|]. exists (EvFetch i id res :: log).
    split; [rewrite Hcalls, <- app_assoc; reflexivity|].
    simpl. constructor; [lia|]. eapply Forall_impl; [exact Hall|]. simpl. intros; lia.
Qed.

(** With the slots in range the loop returns: it has fetched the buckets
    [i], [i + 1], ..., [e] in this order and kept the blocks of the fetches
    that succeeded. *)
Lemma Get_loop_ok n e : forall fuel i out (w : W),
  0 <= i -> e < math_MaxUint32 ->
  0 < n <= Z.of_nat (length (blocks_ (ts w))) ->
  e - i + 1 <= Z.of_nat fuel ->
  exists w' log,
    Get_loop fuel n i e out w = (Return (out ++ fetched log), w') /\
    ts w' = ts w /\
    calls w' = calls w ++ log /\
    fetch_buckets log = seqZ i (e - i + 1) /\
    length log = length (fetch_buckets log).
Proof.
  induction fuel as [|fuel IH]; intros i out w Hi He Hn Hf.
  - rewrite Get_loop_O. destruct (i <=? e) eqn:Hie; [lia|].
    exists w, []. simpl. rewrite !app_nil_r. repeat split; auto.
    rewrite seqZ_nil by lia. reflexivity.
  - rewrite Get_loop_S. destruct (i <=? e) eqn:Hie.
    2:{ exists w, []. simpl. rewrite !app_nil_r. repeat split; auto.
        rewrite seqZ_nil by lia. reflexivity. }
    destruct (n =? 0) eqn:En; [lia|].
    destruct (lookup_lt_is_Some_2 (blocks_ (ts w)) (Z.to_nat (i mod n))) as [id Hid].
    { apply slot_in_range. exact Hn. }
    rewrite Hid. destruct (Fetch (storage w) i id) as [st' res] eqn:HF.
    rewrite wrap32_id by wrap_lia.
    edestruct (IH (i + 1)) as (w' & log & Hl & Hts & Hcalls & Hfb & Hlen);
      [| | | |rewrite Hl]; try lia.
    { simpl. exact Hn. }
    exists w', (EvFetch i id res :: log). simpl in *.
    split; [f_equal; f_equal; destruct res as [[d c]|err]; simpl;
            rewrite <- ?app_assoc; reflexivity|].
    split; [exact Hts|]. split; [rewrite Hcalls, <- app_assoc; reflexivity|].
    split; [|f_equal; exact Hlen].
    rewrite Hfb, (seqZ_cons i (e - i + 1)) by lia. f_equal. f_equal; lia.
Qed.

Lemma new_calls_app (w w' : W) log :
  calls w' = calls w ++ log -> new_calls w w' = log.
Proof. intros H. unfold new_calls. rewrite H. apply drop_app_length. Qed.

(** *** Reads and accessors leave the series alone *)

Lemma Get_loop_ts n e : forall fuel i out (w : W),
  ts (snd (Get_loop fuel n i e out w)) = ts w.
Proof.
  induction fuel as [|fuel IH]; intros i out w.
  - rewrite Get_loop_O. destruct (i <=? e); reflexivity.
  - rewrite Get_loop_S. destruct (i <=? e); [|reflexivity].
    destruct (n =? 0); [reflexivity|].
    destruct (blocks_ (ts w) !! Z.to_nat (i mod n)) as [id|]; [|reflexivity].
    destruct (Fetch (storage w) i id) as [st' res]. rewrite IH. reflexivity.
Qed.

Lemma Get_ts begin end_ (w : W) : ts (after (Get begin end_) w) = ts w.
Proof.
  unfold after, Get. run.
  match goal with |- context [Get_loop ?f ?n ?i ?e ?o w] =>
    pose proof (Get_loop_ts n e f i o w) as H;
    destruct (Get_loop f n i e o w) as [[out|p|] w1] end; exact H.
Qed.

Lemma HasDataPoints_loop_world : forall k i (w : W),
  snd (HasDataPoints_loop k i w) = w.
Proof.
  induction k as [|k IH]; intros i w; simpl; [reflexivity|]. run.
  destruct (blocks_ (ts w) !! Z.to_nat i) as [id|]; [|reflexivity]. simpl.
  destruct (id =? INVALID_ID); [apply IH|reflexivity].
Qed.

Lemma HasDataPoints_world numBuckets (w : W) : after (HasDataPoints numBuckets) w = w.
Proof.
  unfold after, HasDataPoints. run.
  destruct (0 <? count_ (ts w)); [reflexivity|]. apply HasDataPoints_loop_world.
Qed.

(** [Get] with its clamps spelled as in the specification. *)
Lemma Get_unfold begin end_ (w : W) :
  is_uint32 (current_ (ts w)) -> 0 <= NumBuckets (storage w) ->
  Get begin end_ w =
  let b1 := clamp_begin (current_ (ts w)) (NumBuckets (storage w)) begin in
  let e1 := clamp_end (current_ (ts w)) end_ in
  match Get_loop (Z.to_nat (e1 - b1 + 1)) (NumBuckets (storage w)) b1 e1 [] w with
  | (Return out, w') =>
      (Return (out ++ (if (begin <=? current_ (ts w)) && (current_ (ts w) <=? end_)
                       then [live (ts w)] else []), None), w')
  | (Panics p, w') => (Panics p, w')
  | (OutOfFuel, w') => (OutOfFuel, w')
  end.
Proof.
  intros Hc Hn. unfold Get. run.
  assert (He : (if 1 <=? current_ (ts w)
                then MinUint32 end_ (wrap32 (current_ (ts w) - 1))
                else MinUint32 end_ 0) = clamp_end (current_ (ts w)) end_).
  { unfold clamp_end, MinUint32. destruct (1 <=? current_ (ts w)) eqn:E; [|reflexivity].
    rewrite wrap32_id by wrap_lia. reflexivity. }
  assert (Hb : (if NumBuckets (storage w) <=? current_ (ts w)
                then MaxUint32 begin (wrap32 (current_ (ts w) - NumBuckets (storage w)))
                else MaxUint32 begin 0)
               = clamp_begin (current_ (ts w)) (NumBuckets (storage w)) begin).
  { unfold clamp_begin, MaxUint32.
    destruct (NumBuckets (storage w) <=? current_ (ts w)) eqn:E; [|reflexivity].
    rewrite wrap32_id by wrap_lia. reflexivity. }
  rewrite He, Hb.
  destruct (Get_loop _ _ _ _ _ w) as [[out|p|] w1]; simpl; try reflexivity.
  destruct ((begin <=? current_ (ts w)) && (current_ (ts w) <=? end_));
    [reflexivity|rewrite app_nil_r; reflexivity].
Qed.

Lemma clamp_begin_bounds cur n begin :
  0 <= cur -> 0 <= clamp_begin cur n begin /\ cur - n <= clamp_begin cur n begin
              /\ begin <= clamp_begin cur n begin.
Proof. intros H. unfold clamp_begin. destruct (n <=? cur) eqn:E; lia. Qed.

Lemma clamp_end_bounds cur end_ :
  is_uint32 cur ->
  clamp_end cur end_ < math_MaxUint32 /\ clamp_end cur end_ <= end_ /\
  (1 <= cur -> clamp_end cur end_ < cur) /\ (cur = 0 -> clamp_end cur end_ <= 0).
Proof. intros H. unfold clamp_end. destruct (1 <=? cur) eqn:E; wrap_lia. Qed.

(** *** The current bucket across the write path *)

Lemma Put_current i tsid dp category (w : W) :
  is_uint32 i -> is_uint32 (current_ (ts w)) ->
  current_ (ts w) <= current_ (ts (after (Put i tsid dp category) w))
    <= Z.max (current_ (ts w)) i.
Proof.
  intros Hi Hc. unfold after, Put. run.
  destruct (i <? current_ (ts w)) eqn:E; simpl; [lia|].
  destruct (current_ (ts w) <? i) eqn:E'.
  - destruct (open i tsid w) as [r w1] eqn:Ho.
    apply open_bounds in Ho as [_ Hb]; [|wrap_lia|wrap_lia].
    destruct r as [[e|]|p|]; simpl; try lia.
    destruct (Series_Append _ _ _ _) as [s' [e|]]; simpl; [lia|].
    destruct category; simpl; lia.
  - simpl. destruct (Series_Append _ _ _ _) as [s' [e|]]; simpl; [lia|].
    destruct category; simpl; lia.
Qed.

Lemma SetCurrentBucket_current i tsid (w : W) :
  is_uint32 i -> is_uint32 (current_ (ts w)) ->
  current_ (ts w) <= current_ (ts (after (SetCurrentBucket i tsid) w))
    <= Z.max (current_ (ts w)) i.
Proof.
  intros Hi Hc. unfold after, SetCurrentBucket. run.
  destruct (current_ (ts w) <? i) eqn:E; simpl; [|lia].
  destruct (open i tsid w) as [r w1] eqn:Ho.
  apply open_bounds in Ho as [_ Hb]; [|wrap_lia|wrap_lia]. simpl. lia.
Qed.

Lemma SetDataBlock_current position numBuckets id (w : W) :
  0 <= position < math_MaxUint32 ->
  current_ (ts w) <= current_ (ts (after (SetDataBlock position numBuckets id) w)).
Proof.
  intros Hp. unfold after, SetDataBlock. run.
  destruct (current_ (ts w) <=? position) eqn:E; simpl.
  - destruct (numBuckets =? 0); simpl; [rewrite wrap32_id by wrap_lia; lia|].
    match goal with |- context [?a <? Z.of_nat ?l] => destruct (a <? Z.of_nat l) end;
      simpl; rewrite wrap32_id by wrap_lia; lia.
  - destruct (numBuckets =? 0); simpl; [lia|].
    match goal with |- context [?a <? Z.of_nat ?l] => destruct (a <? Z.of_nat l) end;
      simpl; lia.
Qed.

Lemma max_bucket_cons (c : Call (Value := Value)) cs i :
  bucket_of c = Some i -> max_bucket (c :: cs) = Z.max i (max_bucket cs).
Proof. intros H. unfold max_bucket. simpl. rewrite H. reflexivity. Qed.

(** ** The claims *)

(** C1: Rotation ([open]). At the sentinel [current_ = 0] the current
    bucket jumps to the target: nothing is flushed and no slot is written
    (the store, the call log and the slots are as before). Otherwise [open]
    goes one bucket at a time: while the target is ahead it runs one turn
    and goes on from the world that turn left, and it stops when the target
    is reached. A turn on a non-empty bucket calls [Store] once and writes
    the identifier it got into slot [current_ mod capacity]; a turn on an
    empty bucket writes the invalid identifier and calls nothing; both
    reset the stream and the counter and move [current_] on by one. In
    particular, rotating across [k] empty buckets returns without error,
    makes no store call and leaves the slot of each of the [k] buckets
    holding the invalid identifier. *)
Theorem C1_rotation :
  (forall (w : W) next tsid,
      current_ (ts w) = 0 ->
      open next tsid w = (Return None, with_ts w (with_current (ts w) next))) /\
  (forall (w : W) next tsid,
      0 < current_ (ts w) -> current_ (ts w) < next -> next <= math_MaxUint32 ->
      open next tsid w =
      match open_body tsid w with
      | (Return None, w1) => open next tsid w1
      | (Return (Some e), w1) => (Return (Some e), w1)
      | (Panics p, w1) => (Panics p, w1)
      | (OutOfFuel, w1) => (OutOfFuel, w1)
      end) /\
  (forall (w : W) next tsid,
      current_ (ts w) = next -> next <> 0 ->
      open next tsid w = (Return None, w)) /\
  (forall (w : W) tsid st' id,
      0 < count_ (ts w) ->
      Store (storage w) (current_ (ts w)) (Stream (Bs (stream_ (ts w)))) (count_ (ts w)) tsid
        = (st', inl id) ->
      NumBuckets st' <> 0 ->
      current_ (ts w) mod NumBuckets st' < Z.of_nat (length (blocks_ (ts w))) ->
      open_body tsid w =
      (Return None,
       mkWorld (rotate (ts w) id (NumBuckets st')) st'
         (calls w ++ [EvStore (current_ (ts w)) (Stream (Bs (stream_ (ts w))))
                        (count_ (ts w)) tsid (inl id)]))) /\
  (forall (w : W) tsid,
      count_ (ts w) = 0 ->
      NumBuckets (storage w) <> 0 ->
      current_ (ts w) mod NumBuckets (storage w) < Z.of_nat (length (blocks_ (ts w))) ->
      open_body tsid w =
      (Return None, with_ts w (rotate (ts w) INVALID_ID (NumBuckets (storage w))))) /\
  (forall (b : BTS) id n,
      0 <= current_ b < math_MaxUint32 ->
      current_ (rotate b id n) = current_ b + 1 /\
      count_ (rotate b id n) = 0 /\
      stream_ (rotate b id n) = Series_Reset (stream_ b)) /\
  (forall (w : W) k tsid,
      0 < current_ (ts w) -> count_ (ts w) = 0 ->
      0 <= k -> current_ (ts w) + k <= math_MaxUint32 ->
      0 < NumBuckets (storage w) <= Z.of_nat (length (blocks_ (ts w))) ->
      exists w',
        open (current_ (ts w) + k) tsid w = (Return None, w') /\
        current_ (ts w') = current_ (ts w) + k /\
        count_ (ts w') = 0 /\
        storage w' = storage w /\
        calls w' = calls w /\
        forall j, current_ (ts w) <= j < current_ (ts w) + k ->
          blocks_ (ts w') !! Z.to_nat (j mod NumBuckets (storage w)) = Some INVALID_ID).
Proof.
  split; [intros; apply open_sentinel; assumption|].
  split; [intros; apply open_step; assumption|].
  split; [intros; apply open_here; assumption|].
  split; [intros; apply open_body_flush; assumption|].
  split; [intros w tsid Hc; apply open_body_empty; lia|].
  split.
  - intros b id n Hb. simpl. repeat split. apply wrap32_id. wrap_lia.
  - intros w k tsid Hpos Hcnt Hk Hmax Hn.
    destruct (open_gap (Z.to_nat k) w tsid) as (w' & Ho & Hc & Hcnt' & Hst & Hcalls & _ & _ & Hs);
      auto; try lia.
    rewrite Z2Nat.id in * by lia.
    exists w'. repeat split; auto.
Qed.

(** C2: A put to a bucket below the current one returns the error
    "Invalid bucket number!" and changes nothing: the series (stream,
    category, counter, current bucket, recency counter and every slot), the
    block store and the log of store calls are exactly as before. *)
Theorem C2_stale_put_rejected (w : W) i tsid dp category :
  i < current_ (ts w) ->
  Put i tsid dp category w = (Return (Some "Invalid bucket number!"%string), w).
Proof.
  intros H. unfold Put. run.
  destruct (i <? current_ (ts w)) eqn:E; [reflexivity|lia].
Qed.

(** C3: The current bucket never decreases: no call of [Put], [Get],
    [SetCurrentBucket], [SetQueried], [HasDataPoints],
    [GetQueriedBucketsAgo], [GetCategory] or [SetCategory] lowers it,
    however the call ends, and neither does [SetDataBlock] at a position
    below the largest 32-bit value. Moreover, after any sequence of [Put]
    and [SetCurrentBucket] calls the current bucket is at most the larger
    of its starting value and the largest bucket number passed; on a series
    that starts at the sentinel 0 this is the largest bucket number
    passed. *)
Theorem C3_current_monotone :
  (forall (c : Call) (w : W),
      call_in_range c -> is_uint32 (current_ (ts w)) ->
      (forall p n id, c = CSetDataBlock p n id -> p < math_MaxUint32) ->
      current_ (ts w) <= current_ (ts (exec c w))) /\
  (forall (cs : list Call) (w : W),
      Forall call_in_range cs ->
      Forall (fun c => is_Some (bucket_of c)) cs ->
      is_uint32 (current_ (ts w)) ->
      current_ (ts w) <= current_ (ts (exec_all cs w))
        <= Z.max (current_ (ts w)) (max_bucket cs)).
Proof.
  split.
  - intros c w Hr Hc Hp.
    destruct c as [i t dp cat|b e|i t| |p n id|n| | |cat]; simpl in *.
    + apply Put_current; tauto.
    + rewrite Get_ts. lia.
    + apply SetCurrentBucket_current; tauto.
    + reflexivity.
    + apply SetDataBlock_current. specialize (Hp p n id eq_refl).
      destruct Hr as [Hr _]. wrap_lia.
    + rewrite HasDataPoints_world. lia.
    + reflexivity.
    + reflexivity.
    + reflexivity.
  - induction cs as [|c cs IH]; intros w Hr Hb Hc.
    + simpl. lia.
    + inversion Hr as [|? ? Hr1 Hr2]; subst. inversion Hb as [|? ? Hb1 Hb2]; subst.
      assert (Hstep : exists i, bucket_of c = Some i /\ is_uint32 i /\
                current_ (ts w) <= current_ (ts (exec c w)) <= Z.max (current_ (ts w)) i).
      { destruct c as [i t dp cat|b e|i t| |p n id|n| | |cat]; simpl in *;
          try (destruct Hb1 as [? Hb1]; discriminate); exists i.
        - split; [reflexivity|]. split; [tauto|]. apply Put_current; tauto.
        - split; [reflexivity|]. split; [tauto|]. apply SetCurrentBucket_current; tauto. }
      destruct Hstep as (i & Hi & Hir & Hstep).
      rewrite (max_bucket_cons c cs i Hi).
      assert (Hc1 : is_uint32 (current_ (ts (exec c w)))).
      { unfold is_uint32 in *. lia. }
      specialize (IH (exec c w) Hr2 Hb2 Hc1).
      change (exec_all (c :: cs) w) with (exec_all cs (exec c w)). lia.
Qed.

(** C4: Range clamping. The buckets a [Get] asks the store for lie below
    the current bucket and within the last [n] buckets, [n] being the
    capacity the store reports, as soon as a bucket is open
    ([current_ >= 1]); while the series is at the sentinel 0 the only bucket
    that can be asked for is bucket 0. A range that begins after the current
    bucket returns the empty result and asks for nothing. *)
Theorem C4_get_range_clamped (w : W) begin end_ r w' :
  is_uint32 (current_ (ts w)) ->
  0 <= NumBuckets (storage w) ->
  Get begin end_ w = (r, w') ->
  (forall b, In b (fetch_buckets (new_calls w w')) ->
     (1 <= current_ (ts w) ->
      current_ (ts w) - NumBuckets (storage w) <= b < current_ (ts w)) /\
     (current_ (ts w) = 0 -> b = 0)) /\
  (current_ (ts w) < begin -> r = Return ([], None) /\ w' = w).
Proof.
  intros Hc Hn HG. rewrite Get_unfold in HG by assumption. simpl in HG.
  pose proof (clamp_begin_bounds (current_ (ts w)) (NumBuckets (storage w)) begin
                ltac:(wrap_lia)) as (Hb0 & Hbn & Hbb).
  pose proof (clamp_end_bounds (current_ (ts w)) end_ Hc) as (He & Hee & He1 & He0).
  unfold is_uint32 in Hc.
  split.
  - destruct (Get_loop _ _ _ _ _ w) as [r1 w1] eqn:Hl.
    apply Get_loop_log in Hl as (_ & log & Hcalls & Hall); [|lia|lia].
    assert (Hw : calls w' = calls w ++ log).
    { destruct r1; injection HG as <- <-; exact Hcalls. }
    rewrite (new_calls_app _ _ _ Hw).
    intros b Hin. apply (proj1 (List.Forall_forall _ _) Hall) in Hin. lia.
  - intros Hlt.
    assert (Hz : Z.to_nat (clamp_end (current_ (ts w)) end_
                 - clamp_begin (current_ (ts w)) (NumBuckets (storage w)) begin + 1) = O).
    { destruct (Z.eq_dec (current_ (ts w)) 0); lia. }
    rewrite Hz, Get_loop_O in HG.
    destruct (clamp_begin _ _ _ <=? clamp_end _ _) eqn:E;
      [destruct (Z.eq_dec (current_ (ts w)) 0); lia|].
    destruct (begin <=? current_ (ts w)) eqn:E'; [lia|]. simpl in HG.
    injection HG as <- <-. split; reflexivity.
Qed.

(** C5: [Get] never returns an error. Whenever it returns, its error is
    [nil]. With the slots in range it does return: the result is the blocks
    of the fetches that succeeded, in call order, the fetches being for the
    buckets of the clamped range in increasing order (a failed fetch adds
    nothing and stops nothing), followed by one element with the active
    stream's raw bytes and the point counter exactly when
    [begin <= current_ <= end] holds for the arguments as given. The series
    itself is as before. *)
Theorem C5_get_never_errors :
  (forall (w : W) begin end_ out err w',
      Get begin end_ w = (Return (out, err), w') -> err = None) /\
  (forall (w : W) begin end_,
      is_uint32 (current_ (ts w)) ->
      0 < NumBuckets (storage w) <= Z.of_nat (length (blocks_ (ts w))) ->
      exists out w',
        Get begin end_ w = (Return (out, None), w') /\
        ts w' = ts w /\
        out = fetched (new_calls w w') ++
              (if (begin <=? current_ (ts w)) && (current_ (ts w) <=? end_)
               then [live (ts w)] else []) /\
        fetch_buckets (new_calls w w') =
          seqZ (clamp_begin (current_ (ts w)) (NumBuckets (storage w)) begin)
               (clamp_end (current_ (ts w)) end_
                - clamp_begin (current_ (ts w)) (NumBuckets (storage w)) begin + 1) /\
        length (new_calls w w') = length (fetch_buckets (new_calls w w'))).
Proof.
  split.
  - intros w begin end_ out err w'. unfold Get. run.
    destruct (Get_loop _ _ _ _ _ w) as [[o|p|] w1]; simpl; try discriminate.
    intros [= _ <- _]. reflexivity.
  - intros w begin end_ Hc Hn. rewrite Get_unfold by (try assumption; lia). simpl.
    pose proof (clamp_begin_bounds (current_ (ts w)) (NumBuckets (storage w)) begin
                  ltac:(wrap_lia)) as (Hb0 & _).
    pose proof (clamp_end_bounds (current_ (ts w)) end_ Hc) as (He & _).
    edestruct (Get_loop_ok (NumBuckets (storage w)) (clamp_end (current_ (ts w)) end_)
                 (Z.to_nat (clamp_end (current_ (ts w)) end_
                   - clamp_begin (current_ (ts w)) (NumBuckets (storage w)) begin + 1))
                 (clamp_begin (current_ (ts w)) (NumBuckets (storage w)) begin) [] w)
      as (w' & log & Hl & Hts & Hcalls & Hfb & Hlen); [lia|lia|exact Hn|lia|].
    rewrite Hl. simpl. eexists _, w'. split; [reflexivity|].
    rewrite (new_calls_app _ _ _ Hcalls). auto.
Qed.

(** C6: The recency counter saturates. [Reset] sets it to 255, which
    [GetQueriedBucketsAgo] returns as it is; [SetQueried] sets it to 0; a
    completed turn of the rotation loop adds one unless it is 255; and a
    rotation that completed [k] turns from the value [v] leaves it at
    [min (v + k) 255], where [k] is the distance to the target when the
    rotation returns without error. *)
Theorem C6_recency_saturates :
  (forall n (b : BTS), queriedBucketsAgo_ (Reset n b) = 255) /\
  (forall w : W, GetQueriedBucketsAgo w = (Return (queriedBucketsAgo_ (ts w)), w)) /\
  (forall w : W, SetQueried w = (Return tt, with_ts w (with_queried (ts w) 0))) /\
  (forall (w : W) tsid w',
      is_uint8 (queriedBucketsAgo_ (ts w)) ->
      open_body tsid w = (Return None, w') ->
      queriedBucketsAgo_ (ts w') =
        if queriedBucketsAgo_ (ts w) =? 255 then 255 else queriedBucketsAgo_ (ts w) + 1) /\
  (forall (w : W) next tsid r w',
      is_uint8 (queriedBucketsAgo_ (ts w)) ->
      0 < current_ (ts w) <= next -> next <= math_MaxUint32 ->
      open next tsid w = (r, w') ->
      r <> OutOfFuel /\
      queriedBucketsAgo_ (ts w') =
        Z.min (queriedBucketsAgo_ (ts w) + (current_ (ts w') - current_ (ts w))) 255 /\
      (r = Return None -> current_ (ts w') = next)).
Proof.
  split; [reflexivity|]. split; [reflexivity|]. split; [reflexivity|]. split.
  - intros w tsid w' Hq Hb.
    apply open_body_cases in Hb as [(id & _ & Hts & _)|[[[e H]|[p H]] _]]; try discriminate.
    rewrite Hts. simpl. rewrite age_spec by exact Hq.
    destruct (queriedBucketsAgo_ (ts w) =? 255) eqn:E; wrap_lia.
  - intros w next tsid r w' Hq Hc Hmax Ho.
    split; [eapply open_bounds; [| |exact Ho]; lia|].
    unfold open in Ho. run.
    destruct (current_ (ts w) =? 0) eqn:E; [lia|].
    split.
    + eapply open_loop_bounds in Ho as [_ Hq']; [exact Hq'|lia|lia|exact Hq].
    + intros ->. eapply open_loop_done; exact Ho.
Qed.

(** C7: Slot reuse. With capacity [n], the buckets [b] and [b + n] have the
    same slot index. After a rotation that has closed bucket [b + n] (and
    not yet bucket [b + 2n]) and returned without error, that slot holds
    the identifier produced for bucket [b + n]: the one [Store] returned for
    it, or the invalid identifier if it was empty; whatever was there for
    bucket [b] is gone. *)
Theorem C7_slot_reuse (w w' : W) next tsid b :
  stable_capacity ->
  0 < NumBuckets (storage w) ->
  0 < current_ (ts w) <= b + NumBuckets (storage w) ->
  b + NumBuckets (storage w) < next <= b + 2 * NumBuckets (storage w) ->
  next <= math_MaxUint32 ->
  open next tsid w = (Return None, w') ->
  (b + NumBuckets (storage w)) mod NumBuckets (storage w) = b mod NumBuckets (storage w) /\
  blocks_ (ts w') !! Z.to_nat (b mod NumBuckets (storage w))
    = Some (produced_id (new_calls w w') (b + NumBuckets (storage w))).
Proof.
  intros Hstable Hn Hc Hnext Hmax Ho.
  assert (Hmod : (b + NumBuckets (storage w)) mod NumBuckets (storage w)
                 = b mod NumBuckets (storage w)).
  { rewrite <- (Z.mul_1_l (NumBuckets (storage w))) at 1. apply Z.mod_add. lia. }
  split; [exact Hmod|].
  unfold open in Ho. run.
  destruct (current_ (ts w) =? 0) eqn:E; [lia|].
  apply open_loop_window in Ho as (log & Hcalls & Hwin); auto; try lia.
  rewrite (new_calls_app _ _ _ Hcalls), <- Hmod.
  apply Hwin; lia.
Qed.

(** C8: A read does not touch the recency counter: after any [Get],
    however it ends, the series (its recency counter included) is as
    before. The counter is reset to 0 by [SetQueried], the separate call
    that records a query. *)
Theorem C8_get_keeps_recency (w : W) begin end_ :
  ts (after (Get begin end_) w) = ts w /\
  queriedBucketsAgo_ (ts (after (Get begin end_) w)) = queriedBucketsAgo_ (ts w) /\
  queriedBucketsAgo_ (ts (after SetQueried w)) = 0.
Proof.
  split; [apply Get_ts|]. split; [rewrite Get_ts; reflexivity|reflexivity].
Qed.

(** C9: Points written at the sentinel. On a series whose current bucket is
    still 0, a put to bucket 0 that the stream accepts returns without
    error, keeps the appended stream and adds one to the counter, with the
    current bucket still 0 and the store not called. From such a series
    [SetCurrentBucket] to a bucket [i > 0] returns without error and only
    sets the current bucket to [i]: stream, counter, slots, store and call
    log are as before. A put to [i > 0] does what a put to the already open
    bucket [i] does on that same unreset series: the earlier points stay in
    the stream, the counter goes on counting, and nothing is flushed. *)
Theorem C9_sentinel_points_carried (w : W) :
  current_ (ts w) = 0 ->
  (forall tsid dp category s',
      0 <= count_ (ts w) < math_MaxUint16 ->
      Series_Append (stream_ (ts w)) (Timestamp dp) (Value_ dp) MinTimestampDelta
        = (s', None) ->
      Put 0 tsid dp category w =
      (Return None,
       with_ts w
         {| stream_ := match category with Some c => set_ExtraData s' c | None => s' end;
            count_ := count_ (ts w) + 1;
            current_ := 0;
            queriedBucketsAgo_ := queriedBucketsAgo_ (ts w);
            blocks_ := blocks_ (ts w) |})) /\
  (forall i tsid,
      0 < i ->
      SetCurrentBucket i tsid w = (Return None, with_ts w (with_current (ts w) i))) /\
  (forall i tsid dp category,
      0 < i ->
      Put i tsid dp category w =
      Put i tsid dp category (with_ts w (with_current (ts w) i))) /\
  (forall i tsid dp category s',
      0 < i ->
      0 <= count_ (ts w) < math_MaxUint16 ->
      Series_Append (stream_ (ts w)) (Timestamp dp) (Value_ dp) MinTimestampDelta
        = (s', None) ->
      Put i tsid dp category w =
      (Return None,
       with_ts w
         {| stream_ := match category with Some c => set_ExtraData s' c | None => s' end;
            count_ := count_ (ts w) + 1;
            current_ := i;
            queriedBucketsAgo_ := queriedBucketsAgo_ (ts w);
            blocks_ := blocks_ (ts w) |})).
Proof.
  intros Hcur.
  assert (Hw16 : 0 <= count_ (ts w) < math_MaxUint16 ->
                 wrap16 (count_ (ts w) + 1) = count_ (ts w) + 1).
  { intros H. unfold wrap16. apply Z.mod_small. wrap_lia. }
  split; [|split; [|split]].
  - intros tsid dp category s' Hcnt HA. unfold Put. run. rewrite Hcur. simpl.
    rewrite HA. destruct category; simpl; unfold with_count, with_stream; simpl;
      rewrite Hw16 by exact Hcnt; rewrite Hcur; reflexivity.
  - intros i tsid Hi. unfold SetCurrentBucket. run. rewrite Hcur.
    destruct (0 <? i) eqn:E; [|lia]. apply open_sentinel. exact Hcur.
  - intros i tsid dp category Hi. unfold Put. run. rewrite Hcur.
    destruct (i <? 0) eqn:E; [lia|]. destruct (0 <? i) eqn:E'; [|lia].
    rewrite open_sentinel by exact Hcur. simpl.
    rewrite Z.ltb_irrefl. simpl. reflexivity.
  - intros i tsid dp category s' Hi Hcnt HA. unfold Put. run. rewrite Hcur.
    destruct (i <? 0) eqn:E; [lia|]. destruct (0 <? i) eqn:E'; [|lia].
    rewrite open_sentinel by exact Hcur. simpl.
    rewrite HA. destruct category; simpl; unfold with_count, with_stream, with_current;
      simpl; rewrite Hw16 by exact Hcnt; reflexivity.
Qed.

(** C10: [SetDataBlock] below the current bucket. When [position] is below
    [current_] the call writes [id] into slot [position mod numBuckets] and
    changes nothing else: the current bucket, the counter, the stream, the
    recency counter, the store and the call log are as before, and so is
    every other slot. Every bucket that shares the slot index, a more recent
    one included, now finds [id] in its slot. *)
Theorem C10_set_data_block_below_current (w : W) position numBuckets id :
  position < current_ (ts w) ->
  0 < numBuckets ->
  position mod numBuckets < Z.of_nat (length (blocks_ (ts w))) ->
  SetDataBlock position numBuckets id w =
    (Return tt,
     with_ts w (with_blocks (ts w)
       (<[Z.to_nat (position mod numBuckets) := id]> (blocks_ (ts w))))) /\
  (forall p, p mod numBuckets = position mod numBuckets ->
     <[Z.to_nat (position mod numBuckets) := id]> (blocks_ (ts w))
       !! Z.to_nat (p mod numBuckets) = Some id) /\
  (forall k, k <> Z.to_nat (position mod numBuckets) ->
     <[Z.to_nat (position mod numBuckets) := id]> (blocks_ (ts w)) !! k
       = blocks_ (ts w) !! k).
Proof.
  intros Hlt Hn Hi. split; [|split].
  - unfold SetDataBlock. run.
    destruct (current_ (ts w) <=? position) eqn:E; [lia|]. simpl.
    destruct (numBuckets =? 0) eqn:En; [lia|]. simpl.
    destruct (position mod numBuckets <? Z.of_nat (length (blocks_ (ts w)))) eqn:Ei; [|lia].
    reflexivity.
  - intros p ->. apply list_lookup_insert_eq.
    pose proof (Z.mod_pos_bound position numBuckets Hn). lia.
  - intros k Hk. apply list_lookup_insert_ne. congruence.
Qed.

End Facts.

(** ** The claims on the concrete stream and store *)

Section OnSample.

Import Sample.

(** Closes a side condition on concrete numbers by evaluation. *)
Ltac by_eval :=
  vm_compute; repeat split;
  first [reflexivity | let H := fresh in intro H; discriminate H].

Lemma sample_stable_capacity : stable_capacity (BucketStorage := store).
Proof. intros st bucket data count tsid. reflexivity. Qed.

Lemma pair_eta {A B} (p : A * B) : p = (fst p, snd p).
Proof. now destruct p. Qed.

Lemma C1_rotation_witness :
  open 5 1 fresh = (Return None, with_ts fresh (with_current (ts fresh) 5)) /\
  open_body 1 after_put5 =
    (Return None,
     mkWorld (rotate (ts after_put5) 1 3) (mkStore 3 [(5, [x64], 1)])
       [EvStore 5 [x64] 1 1 (inl 1)]) /\
  exists w',
    open (5 + 4) 1 idle5 = (Return None, w') /\
    current_ (ts w') = 5 + 4 /\
    count_ (ts w') = 0 /\
    storage w' = storage idle5 /\
    calls w' = calls idle5 /\
    forall j, 5 <= j < 5 + 4 -> blocks_ (ts w') !! Z.to_nat (j mod 3) = Some 0.
Proof.
  destruct (C1_rotation (BitStream := list (Z * Z)) (Value := Z) (BucketStorage := store))
    as (Hsentinel & _ & _ & Hflush & _ & _ & Hgap).
  split; [apply Hsentinel; reflexivity|].
  split.
  - apply (Hflush after_put5 1 (mkStore 3 [(5, [x64], 1)]) 1);
      [reflexivity | reflexivity | discriminate | reflexivity].
  - apply (Hgap idle5 4 1); by_eval.
Defined.

Lemma C2_stale_put_rejected_witness :
  3 < current_ (ts after_put5) /\
  Put 3 1 (point 150 1) None after_put5
    = (Return (Some "Invalid bucket number!"%string), after_put5).
Proof.
  split; [reflexivity|]. apply C2_stale_put_rejected. reflexivity.
Defined.

(** C3 fails for [SetDataBlock] at the largest 32-bit position: on a series
    at bucket 5 the call leaves the current bucket at 0. *)
Lemma C3_counterexample :
  call_in_range (Value := Z) (CSetDataBlock 4294967295 3 7) /\
  current_ (ts idle5) = 5 /\
  current_ (ts (exec (Value := Z) (CSetDataBlock 4294967295 3 7) idle5)) = 0 /\
  current_ (ts (exec (Value := Z) (CSetDataBlock 4294967295 3 7) idle5))
    < current_ (ts idle5).
Proof. repeat split; vm_compute; first [reflexivity | discriminate]. Qed.

Lemma C3_current_monotone_witness :
  current_ (ts after_put5)
    <= current_ (ts (exec (CPut 7 1 (point 200 2) None) after_put5)) /\
  current_ (ts fresh)
    <= current_ (ts (exec_all [CPut 5 1 (point 100 1) None; CSetCurrentBucket 7 1] fresh))
    <= Z.max (current_ (ts fresh))
             (max_bucket [CPut 5 1 (point 100 1) None; CSetCurrentBucket 7 1]).
Proof.
  destruct (C3_current_monotone (BitStream := list (Z * Z)) (Value := Z)
              (BucketStorage := store)) as [Hone Hseq].
  split.
  - apply Hone; [by_eval | by_eval | discriminate].
  - apply Hseq.
    + repeat constructor; by_eval.
    + repeat constructor; simpl; eauto.
    + by_eval.
Defined.

(** C4 fails at the sentinel: on a fresh series [Get 0 0] asks the store
    for bucket 0, which is not below the current bucket 0. *)
Lemma C4_counterexample :
  exists b,
    In b (fetch_buckets (new_calls fresh (after (Get 0 0) fresh))) /\
    ~ (current_ (ts fresh) - NumBuckets (storage fresh) <= b < current_ (ts fresh)).
Proof.
  exists 0. split; [vm_compute; tauto|]. vm_compute. intros [_ H]. discriminate H.
Qed.

Lemma C4_get_range_clamped_witness :
  In 5 (fetch_buckets (new_calls after_put7 (snd (Get 4 7 after_put7)))) /\
  7 - 3 <= 5 < 7 /\
  fst (Get 9 12 after_put7) = Return ([], None) /\
  snd (Get 9 12 after_put7) = after_put7.
Proof.
  assert (Hr : is_uint32 (current_ (ts after_put7))) by by_eval.
  assert (Hn : 0 <= NumBuckets (storage after_put7)) by by_eval.
  assert (Hin : In 5 (fetch_buckets (new_calls after_put7 (snd (Get 4 7 after_put7)))))
    by (vm_compute; tauto).
  split; [exact Hin|]. split.
  - apply (C4_get_range_clamped after_put7 4 7 _ _ Hr Hn (pair_eta _)); [exact Hin|].
    by_eval.
  - apply (C4_get_range_clamped after_put7 9 12 _ _ Hr Hn (pair_eta _)). by_eval.
Defined.

Lemma C5_get_never_errors_witness :
  exists out w',
    Get 4 7 after_put7 = (Return (out, None), w') /\
    ts w' = ts after_put7 /\
    out = fetched (new_calls after_put7 w') ++ [live (ts after_put7)] /\
    fetch_buckets (new_calls after_put7 w') = [4; 5; 6] /\
    length (new_calls after_put7 w') = length (fetch_buckets (new_calls after_put7 w')).
Proof.
  destruct (C5_get_never_errors (BitStream := list (Z * Z)) (Value := Z)
              (BucketStorage := store)) as [_ Hok].
  apply (Hok after_put7 4 7); by_eval.
Defined.

Lemma C6_recency_saturates_witness :
  queriedBucketsAgo_ (ts queried5) = 0 /\
  fst (open 7 1 queried5) <> OutOfFuel /\
  queriedBucketsAgo_ (ts (snd (open 7 1 queried5)))
    = Z.min (0 + (current_ (ts (snd (open 7 1 queried5))) - 5)) 255 /\
  (fst (open 7 1 queried5) = Return None -> current_ (ts (snd (open 7 1 queried5))) = 7).
Proof.
  destruct (C6_recency_saturates (BitStream := list (Z * Z)) (Value := Z)
              (BucketStorage := store)) as (_ & _ & _ & _ & Hopen).
  split; [reflexivity|].
  apply (Hopen queried5 7 1 _ _); [by_eval | by_eval | by_eval | apply pair_eta].
Defined.

Lemma C7_slot_reuse_witness :
  NumBuckets (storage after_put8) = 3 /\
  open 9 1 after_put8 = (Return None, snd (open 9 1 after_put8)) /\
  blocks_ (ts after_put8) !! Z.to_nat (5 mod 3) = Some 1 /\
  (5 + NumBuckets (storage after_put8)) mod NumBuckets (storage after_put8)
    = 5 mod NumBuckets (storage after_put8) /\
  blocks_ (ts (snd (open 9 1 after_put8))) !! Z.to_nat (5 mod NumBuckets (storage after_put8))
    = Some (produced_id (new_calls after_put8 (snd (open 9 1 after_put8)))
              (5 + NumBuckets (storage after_put8))).
Proof.
  assert (Ho : open 9 1 after_put8 = (Return None, snd (open 9 1 after_put8)))
    by (vm_compute; reflexivity).
  split; [reflexivity|]. split; [exact Ho|]. split; [reflexivity|].
  apply (C7_slot_reuse after_put8 (snd (open 9 1 after_put8)) 9 1 5 sample_stable_capacity);
    [by_eval | by_eval | by_eval | by_eval | exact Ho].
Defined.

(** C8 fails two rotations after the last [SetQueried]: a [Get] leaves the
    recency counter at 2. *)
Lemma C8_counterexample :
  queriedBucketsAgo_ (ts (after (Put 7 1 (point 200 2) None) queried5)) = 2 /\
  queriedBucketsAgo_
    (ts (after (Get 4 7) (after (Put 7 1 (point 200 2) None) queried5))) = 2 /\
  queriedBucketsAgo_
    (ts (after (Get 4 7) (after (Put 7 1 (point 200 2) None) queried5))) <> 0.
Proof. repeat split; vm_compute; first [reflexivity | discriminate]. Qed.

Lemma C9_sentinel_points_carried_witness :
  Put 0 1 (point 100 1) None fresh =
    (Return None,
     with_ts fresh
       {| stream_ := mkSeries [(100, 1)] 0;
          count_ := count_ (ts fresh) + 1;
          current_ := 0;
          queriedBucketsAgo_ := queriedBucketsAgo_ (ts fresh);
          blocks_ := blocks_ (ts fresh) |}) /\
  SetCurrentBucket 6 1 (after (Put 0 1 (point 100 1) None) fresh) =
    (Return None,
     with_ts (after (Put 0 1 (point 100 1) None) fresh)
       (with_current (ts (after (Put 0 1 (point 100 1) None) fresh)) 6)) /\
  Put 6 1 (point 200 2) None (after (Put 0 1 (point 100 1) None) fresh) =
    (Return None,
     with_ts (after (Put 0 1 (point 100 1) None) fresh)
       {| stream_ := mkSeries [(100, 1); (200, 2)] 0;
          count_ := 1 + 1;
          current_ := 6;
          queriedBucketsAgo_ := 255;
          blocks_ := [0; 0; 0] |}).
Proof.
  destruct (C9_sentinel_points_carried (Value := Z) fresh eq_refl) as (Hput0 & _).
  assert (Hstill : current_ (ts (after (Put 0 1 (point 100 1) None) fresh)) = 0)
    by (vm_compute; reflexivity).
  destruct (C9_sentinel_points_carried (Value := Z)
              (after (Put 0 1 (point 100 1) None) fresh) Hstill)
    as (_ & Hset & _ & Hput).
  split; [|split].
  - apply (Hput0 1 (point 100 1) None (mkSeries [(100, 1)] 0)); [by_eval | reflexivity].
  - apply Hset. by_eval.
  - apply (Hput 6 1 (point 200 2) None (mkSeries [(100, 1); (200, 2)] 0));
      [by_eval | by_eval | reflexivity].
Defined.

Lemma C10_set_data_block_below_current_witness :
  2 < current_ (ts after_put8) /\
  blocks_ (ts after_put8) = [0; 2; 1] /\
  SetDataBlock 2 3 99 after_put8 =
    (Return tt, with_ts after_put8 (with_blocks (ts after_put8) [0; 2; 99])) /\
  <[Z.to_nat (2 mod 3) := 99]> (blocks_ (ts after_put8)) !! Z.to_nat (5 mod 3) = Some 99.
Proof.
  destruct (C10_set_data_block_below_current after_put8 2 3 99)
    as (Hcall & Hshared & _); [reflexivity | reflexivity | reflexivity |].
  split; [reflexivity|]. split; [reflexivity|]. split; [exact Hcall|].
  apply Hshared. reflexivity.
Defined.

End OnSample.

(** ** Further vocabulary *)

Section MoreVocabulary.

Context `{CO : Constants}.

(** Some slot of the list holds a valid identifier. *)
Definition any_valid (l : list Z) : bool :=
  existsb (fun id => negb (id =? INVALID_ID)) l.

End MoreVocabulary.

(** ** Further facts about the controller *)

Section MoreFacts.

Context {BitStream Value BucketStorage : Type}.
Context `{SM : SeriesMethods BitStream Value}.
Context `{ST : StorageMethods BucketStorage}.
Context `{CO : Constants}.

Local Abbreviation BTS := (BucketedTimeSeries BitStream).
Local Abbreviation W := (World BitStream BucketStorage).

Ltac run :=
  repeat progress
    (unfold bind, ret, this, update, raise, out_of_fuel, call_NumBuckets,
       umod, get_block, set_block, call_Store, call_Fetch, with_ts in *;
     simpl in *).

Ltac ranges :=
  unfold wrap8, wrap16, wrap32, is_uint8, is_uint16, is_uint32,
    math_MaxUint8, math_MaxUint16, math_MaxUint32, MinUint32, MaxUint32 in *;
  repeat match goal with
         | |- context [2 ^ 8] => change (2 ^ 8) with 256
         | |- context [2 ^ 16] => change (2 ^ 16) with 65536
         | |- context [2 ^ 32] => change (2 ^ 32) with 4294967296
         | H : context [2 ^ 8] |- _ => change (2 ^ 8) with 256 in H
         | H : context [2 ^ 16] |- _ => change (2 ^ 16) with 65536 in H
         | H : context [2 ^ 32] |- _ => change (2 ^ 32) with 4294967296 in H
         end;
  Z.div_mod_to_equations; lia.

(** *** Store calls made by a rotation *)

(** What one turn asks of the store, whatever its outcome: nothing on an
    empty bucket; one [Store] call on a non-empty one, whose failure is the
    only way for the turn to return an error. *)
Lemma open_body_calls tsid (w : W) r w' :
  open_body tsid w = (r, w') ->
  (count_ (ts w) <= 0 /\ storage w' = storage w /\ calls w' = calls w /\
   forall e, r <> Return (Some e))
  \/ (0 < count_ (ts w) /\
      exists res,
        Store (storage w) (current_ (ts w)) (Stream (Bs (stream_ (ts w))))
          (count_ (ts w)) tsid = (storage w', res) /\
        calls w' = calls w ++
          [EvStore (current_ (ts w)) (Stream (Bs (stream_ (ts w))))
             (count_ (ts w)) tsid res] /\
        match res with
        | inr e => r = Return (Some e) /\ ts w' = ts w
        | inl _ => forall e, r <> Return (Some e)
        end).
Proof.
  unfold open_body. run.
  destruct (0 <? count_ (ts w)) eqn:Hc.
  - destruct (Store _ _ _ _ _) as [st' [id|e]] eqn:HS; simpl.
    + destruct (NumBuckets st' =? 0) eqn:Hn; simpl.
      { intros [= <- <-]. right. split; [lia|]. exists (inl id). simpl.
        repeat split; discriminate. }
      match goal with |- context [?a <? Z.of_nat ?l] => destruct (a <? Z.of_nat l) end;
        simpl; intros [= <- <-]; right; (split; [lia|]); exists (inl id); simpl;
        repeat split; discriminate.
    + intros [= <- <-]. right. split; [lia|]. exists (inr e). simpl. repeat split.
  - destruct (NumBuckets (storage w) =? 0) eqn:Hn; simpl.
    { intros [= <- <-]. left. repeat split; try lia; discriminate. }
    match goal with |- context [?a <? Z.of_nat ?l] => destruct (a <? Z.of_nat l) end;
      simpl; intros [= <- <-]; left; repeat split; try lia; discriminate.
Qed.

(** From an empty bucket on, a rotation asks nothing of the store and
    cannot return an error. *)
Lemma open_loop_quiet next tsid : forall fuel (w : W) r w',
  count_ (ts w) <= 0 ->
  open_loop fuel next tsid w = (r, w') ->
  storage w' = storage w /\ calls w' = calls w /\ forall e, r <> Return (Some e).
Proof.
  induction fuel as [|fuel IH]; intros w r w' Hc.
  - simpl. run. destruct (current_ (ts w) =? next); intros [= <- <-];
      repeat split; discriminate.
  - rewrite open_loop_S. destruct (current_ (ts w) =? next).
    { intros [= <- <-]. repeat split; discriminate. }
    destruct (open_body tsid w) as [r1 w1] eqn:Hb.
    pose proof Hb as Hb'.
    apply open_body_calls in Hb as [(_ & Hst & Hcalls & Hne)|(Hpos & _)]; [|lia].
    destruct r1 as [[e|]|p|].
    + exfalso. eapply Hne; reflexivity.
    + intros Hl.
      apply open_body_cases in Hb' as [(id & _ & Hts & _)|[[[e H]|[p H]] _]];
        try discriminate.
      apply IH in Hl as (Hst' & Hcalls' & Hne'); [|rewrite Hts; simpl; lia].
      repeat split; [congruence|congruence|exact Hne'].
    + intros [= <- <-]. repeat split; [exact Hst|exact Hcalls|discriminate].
    + intros [= <- <-]. repeat split; [exact Hst|exact Hcalls|discriminate].
Qed.

Lemma open_loop_one_store next tsid fuel (w : W) r w' :
  open_loop fuel next tsid w = (r, w') ->
  (calls w' = calls w \/
   exists res, calls w' = calls w ++
     [EvStore (current_ (ts w)) (Stream (Bs (stream_ (ts w)))) (count_ (ts w)) tsid res]) /\
  (forall e, r = Return (Some e) ->
     ts w' = ts w /\
     calls w' = calls w ++
       [EvStore (current_ (ts w)) (Stream (Bs (stream_ (ts w)))) (count_ (ts w)) tsid
          (inr e)]).
Proof.
  destruct fuel as [|fuel].
  - simpl. run. destruct (current_ (ts w) =? next); intros [= <- <-];
      (split; [left; reflexivity|discriminate]).
  - rewrite open_loop_S. destruct (current_ (ts w) =? next).
    { intros [= <- <-]. split; [left; reflexivity|discriminate]. }
    destruct (open_body tsid w) as [r1 w1] eqn:Hb.
    pose proof Hb as Hb'.
    apply open_body_calls in Hb as [(Hc & Hst & Hcalls & Hne)|(Hpos & res & HS & Hcalls & Hres)].
    + destruct r1 as [[e|]|p|].
      * exfalso. eapply Hne; reflexivity.
      * intros Hl.
        apply open_body_cases in Hb' as [(id & _ & Hts & _)|[[[e H]|[p H]] _]];
          try discriminate.
        apply open_loop_quiet in Hl as (_ & Hcalls' & Hne'); [|rewrite Hts; simpl; lia].
        split; [left; congruence|]. intros e ->. exfalso. eapply Hne'; reflexivity.
      * intros [= <- <-]. split; [left; exact Hcalls|discriminate].
      * intros [= <- <-]. split; [left; exact Hcalls|discriminate].
    + destruct res as [id|e0].
      * destruct r1 as [[e|]|p|].
        -- exfalso. eapply Hres; reflexivity.
        -- intros Hl.
           apply open_body_cases in Hb' as [(id' & _ & Hts & _)|[[[e H]|[p H]] _]];
             try discriminate.
           apply open_loop_quiet in Hl as (_ & Hcalls' & Hne'); [|rewrite Hts; simpl; lia].
           split; [right; exists (inl id); congruence|].
           intros e ->. exfalso. eapply Hne'; reflexivity.
        -- intros [= <- <-]. split; [right; exists (inl id); exact Hcalls|discriminate].
        -- intros [= <- <-]. split; [right; exists (inl id); exact Hcalls|discriminate].
      * destruct Hres as [-> Hts]. intros [= <- <-].
        split; [right; exists (inr e0); exact Hcalls|].
        intros e [= <-]. split; [exact Hts|exact Hcalls].
Qed.

(** After a rotation over at least one bucket that returned without error
    the target bucket is open and empty. *)
Lemma open_ok_state next tsid (w w' : W) :
  0 < current_ (ts w) < next -> next <= math_MaxUint32 ->
  open next tsid w = (Return None, w') ->
  current_ (ts w') = next /\ count_ (ts w') = 0.
Proof.
  intros Hc Hmax Ho. rewrite open_step in Ho by lia.
  destruct (open_body tsid w) as [[[e|]|p|] w1] eqn:Hb; try discriminate.
  apply open_body_cases in Hb as [(id & _ & Hts & _)|[[[e H]|[p H]] _]]; try discriminate.
  unfold open in Ho. run.
  assert (Hc1 : current_ (ts w1) = current_ (ts w) + 1).
  { rewrite Hts. simpl. apply wrap32_id. ranges. }
  destruct (current_ (ts w1) =? 0) eqn:E; [lia|].
  split; [eapply open_loop_done; exact Ho|].
  set (I := fun w2 : W => count_ (ts w2) = 0).
  apply (open_loop_ok_inv I next tsid) with (fuel := open_fuel (ts w1) next) (w := w1);
    [|unfold I; rewrite Hts; reflexivity|exact Ho].
  intros w2 w3 _ _ Hb2.
  apply open_body_cases in Hb2 as [(id' & _ & Hts' & _)|[[[e H]|[p H]] _]];
    try discriminate.
  unfold I. rewrite Hts'. reflexivity.
Qed.

(** ** Properties beyond the claims *)

(** X1: one call of [open] asks the block store at most once, and only to
    store the bucket that was current when it was entered (every later
    bucket it closes is empty). If [open] returns an error, that one call
    failed and the series is exactly as before: no bucket has been
    rotated. *)
Theorem X1_open_one_store (w : W) next tsid r w' :
  open next tsid w = (r, w') ->
  (new_calls w w' = [] \/
   exists res, new_calls w w' =
     [EvStore (current_ (ts w)) (Stream (Bs (stream_ (ts w)))) (count_ (ts w)) tsid res]) /\
  (forall e, r = Return (Some e) ->
     ts w' = ts w /\
     new_calls w w' =
       [EvStore (current_ (ts w)) (Stream (Bs (stream_ (ts w)))) (count_ (ts w)) tsid
          (inr e)]).
Proof.
  unfold open. run. destruct (current_ (ts w) =? 0).
  - intros [= <- <-]. split; [|discriminate]. left.
    apply new_calls_app. simpl. rewrite app_nil_r. reflexivity.
  - intros Hl. apply open_loop_one_store in Hl as [Hcalls Herr]. split.
    + destruct Hcalls as [Hcalls|[res Hcalls]].
      * left. apply new_calls_app. rewrite app_nil_r. exact Hcalls.
      * right. exists res. apply new_calls_app. exact Hcalls.
    + intros e He. destruct (Herr e He) as [Hts Hcalls'].
      split; [exact Hts|]. apply new_calls_app. exact Hcalls'.
Qed.

(** X2: when the flush of the open bucket fails, [Put] to a later bucket
    and [SetCurrentBucket] return the store's error and leave the series
    untouched: the point is not appended, the bucket stays open with its
    points, and only the store and the call log have moved. *)
Theorem X2_flush_failure_keeps_series (w : W) i tsid st' e :
  0 < current_ (ts w) < i -> i <= math_MaxUint32 ->
  0 < count_ (ts w) ->
  Store (storage w) (current_ (ts w)) (Stream (Bs (stream_ (ts w)))) (count_ (ts w)) tsid
    = (st', inr e) ->
  (forall dp category,
      Put i tsid dp category w =
      (Return (Some e),
       mkWorld (ts w) st'
         (calls w ++ [EvStore (current_ (ts w)) (Stream (Bs (stream_ (ts w))))
                        (count_ (ts w)) tsid (inr e)]))) /\
  SetCurrentBucket i tsid w =
    (Return (Some e),
     mkWorld (ts w) st'
       (calls w ++ [EvStore (current_ (ts w)) (Stream (Bs (stream_ (ts w))))
                      (count_ (ts w)) tsid (inr e)])).
Proof.
  intros Hc Hmax Hcnt HS.
  assert (Ho : open i tsid w =
    (Return (Some e),
     mkWorld (ts w) st'
       (calls w ++ [EvStore (current_ (ts w)) (Stream (Bs (stream_ (ts w))))
                      (count_ (ts w)) tsid (inr e)]))).
  { rewrite open_step by lia.
    rewrite (open_body_store_fails tsid w st' e Hcnt HS). reflexivity. }
  split.
  - intros dp category. unfold Put. run.
    destruct (i <? current_ (ts w)) eqn:E; [lia|].
    destruct (current_ (ts w) <? i) eqn:E'; [|lia].
    rewrite Ho. reflexivity.
  - unfold SetCurrentBucket. run.
    destruct (current_ (ts w) <? i) eqn:E'; [|lia]. exact Ho.
Qed.

(** X3: a [Put] into a bucket after the open one that returns without
    error leaves that bucket open with exactly one point counted, whatever
    the counter was before, and the recency counter aged by the number of
    buckets crossed (saturating at 255). *)
Theorem X3_put_new_bucket (w : W) i tsid dp category w' :
  0 < current_ (ts w) < i -> i <= math_MaxUint32 ->
  is_uint8 (queriedBucketsAgo_ (ts w)) ->
  Put i tsid dp category w = (Return None, w') ->
  current_ (ts w') = i /\
  count_ (ts w') = 1 /\
  queriedBucketsAgo_ (ts w') =
    Z.min (queriedBucketsAgo_ (ts w) + (i - current_ (ts w))) 255.
Proof.
  intros Hc Hmax Hq. unfold Put. run.
  destruct (i <? current_ (ts w)) eqn:E; [lia|].
  destruct (current_ (ts w) <? i) eqn:E'; [|lia].
  destruct (open i tsid w) as [r1 w1] eqn:Ho.
  destruct r1 as [[e|]|p|]; simpl; try discriminate.
  destruct (open_ok_state i tsid w w1 Hc Hmax Ho) as [Hcur Hcnt].
  assert (Hage : queriedBucketsAgo_ (ts w1) =
                 Z.min (queriedBucketsAgo_ (ts w) + (i - current_ (ts w))) 255).
  { unfold open in Ho. run. destruct (current_ (ts w) =? 0) eqn:E0; [lia|].
    eapply open_loop_bounds in Ho as [_ Hq']; [|lia|lia|exact Hq].
    rewrite Hq', Hcur. reflexivity. }
  destruct (Series_Append _ _ _ _) as [s' [e|]]; simpl; try discriminate.
  destruct category; simpl; intros [= <-]; simpl; rewrite Hcnt;
    (split; [exact Hcur|split; [reflexivity|exact Hage]]).
Qed.

(** X4: when the stream rejects the point, [Put] returns the stream's
    error without counting the point and without applying the category
    override. At the open bucket nothing but the stream (as [Append] left
    it) changes; after a rotation the rotation is not undone: the target
    bucket is open and empty. *)
Theorem X4_put_append_rejected :
  (forall (w : W) tsid dp category s' e,
      Series_Append (stream_ (ts w)) (Timestamp dp) (Value_ dp) MinTimestampDelta
        = (s', Some e) ->
      Put (current_ (ts w)) tsid dp category w =
        (Return (Some e), with_ts w (with_stream (ts w) s'))) /\
  (forall (w w1 : W) i tsid dp category s' e,
      0 < current_ (ts w) < i -> i <= math_MaxUint32 ->
      open i tsid w = (Return None, w1) ->
      Series_Append (stream_ (ts w1)) (Timestamp dp) (Value_ dp) MinTimestampDelta
        = (s', Some e) ->
      Put i tsid dp category w =
        (Return (Some e), with_ts w1 (with_stream (ts w1) s')) /\
      current_ (ts w1) = i /\ count_ (ts w1) = 0).
Proof.
  split.
  - intros w tsid dp category s' e HA. unfold Put. run.
    rewrite Z.ltb_irrefl. simpl. rewrite HA. reflexivity.
  - intros w w1 i tsid dp category s' e Hc Hmax Ho HA.
    split; [|eapply open_ok_state; eauto].
    unfold Put. run.
    destruct (i <? current_ (ts w)) eqn:E; [lia|].
    destruct (current_ (ts w) <? i) eqn:E'; [|lia].
    rewrite Ho. simpl. rewrite HA. reflexivity.
Qed.

(** X5: the point counter is 16 bits wide and [Put] does not guard it. A
    bucket holding 65535 points accepts one more and its counter wraps to
    0; the next rotation then takes the bucket for empty: it makes no store
    call and records the invalid identifier in the bucket's slot. *)
Theorem X5_counter_wraps_and_bucket_is_dropped (w : W) tsid dp category s' next :
  0 < current_ (ts w) < next -> next <= math_MaxUint32 ->
  count_ (ts w) = 65535 ->
  Series_Append (stream_ (ts w)) (Timestamp dp) (Value_ dp) MinTimestampDelta
    = (s', None) ->
  0 < NumBuckets (storage w) <= Z.of_nat (length (blocks_ (ts w))) ->
  exists w1 w2,
    Put (current_ (ts w)) tsid dp category w = (Return None, w1) /\
    count_ (ts w1) = 0 /\
    open next tsid w1 = (Return None, w2) /\
    storage w2 = storage w /\
    calls w2 = calls w /\
    blocks_ (ts w2) !! Z.to_nat (current_ (ts w) mod NumBuckets (storage w))
      = Some INVALID_ID.
Proof.
  intros Hc Hmax Hcnt HA Hn.
  set (w1 := with_ts w
    {| stream_ := match category with Some c => set_ExtraData s' c | None => s' end;
       count_ := 0;
       current_ := current_ (ts w);
       queriedBucketsAgo_ := queriedBucketsAgo_ (ts w);
       blocks_ := blocks_ (ts w) |}).
  assert (HP : Put (current_ (ts w)) tsid dp category w = (Return None, w1)).
  { unfold Put. run. rewrite Z.ltb_irrefl. simpl. rewrite HA.
    destruct category; simpl; unfold with_count, with_stream; simpl;
      rewrite Hcnt; reflexivity. }
  destruct (open_gap (Z.to_nat (next - current_ (ts w))) w1 tsid)
    as (w2 & Ho & _ & _ & Hst & Hcalls & _ & _ & Hslots);
    simpl; try lia.
  exists w1, w2. split; [exact HP|]. split; [reflexivity|].
  simpl in Ho. rewrite Z2Nat.id in Ho by lia.
  replace (current_ (ts w) + (next - current_ (ts w))) with next in Ho by lia.
  split; [exact Ho|]. split; [exact Hst|]. split; [exact Hcalls|].
  apply (Hslots (current_ (ts w))). simpl. lia.
Qed.

(** *** HasDataPoints *)

Lemma any_valid_replicate m : any_valid (replicate m INVALID_ID) = false.
Proof.
  induction m as [|m IH]; simpl; [reflexivity|].
  rewrite Z.eqb_refl. exact IH.
Qed.

(** Within the array the scan returns whether one of the [k] slots from
    [i] on is valid. *)
Lemma HasDataPoints_loop_in_range : forall k i (w : W),
  0 <= i -> (Z.to_nat i + k <= length (blocks_ (ts w)))%nat ->
  HasDataPoints_loop k i w =
    (Return (any_valid (take k (drop (Z.to_nat i) (blocks_ (ts w))))), w).
Proof.
  induction k as [|k IH]; intros i w Hi Hlen; simpl; [reflexivity|]. run.
  destruct (lookup_lt_is_Some_2 (blocks_ (ts w)) (Z.to_nat i)) as [id Hid]; [lia|].
  rewrite Hid. simpl. rewrite (drop_S _ _ _ Hid). simpl.
  destruct (id =? INVALID_ID); simpl; [|reflexivity].
  rewrite IH by lia. replace (Z.to_nat (i + 1)) with (S (Z.to_nat i)) by lia.
  reflexivity.
Qed.

(** Running past the end of the array the scan returns true if it meets a
    valid slot first and panics otherwise. *)
Lemma HasDataPoints_loop_past_end : forall k i (w : W),
  0 <= i -> (Z.to_nat i <= length (blocks_ (ts w)))%nat ->
  (length (blocks_ (ts w)) < Z.to_nat i + k)%nat ->
  HasDataPoints_loop k i w =
    if any_valid (drop (Z.to_nat i) (blocks_ (ts w)))
    then (Return true, w) else (Panics IndexOutOfRange, w).
Proof.
  induction k as [|k IH]; intros i w Hi Hle Hlt; [lia|]. simpl. run.
  destruct (blocks_ (ts w) !! Z.to_nat i) as [id|] eqn:Hid; simpl.
  - rewrite (drop_S _ _ _ Hid). simpl.
    apply lookup_lt_Some in Hid.
    destruct (id =? INVALID_ID); simpl; [|reflexivity].
    rewrite IH by lia. replace (Z.to_nat (i + 1)) with (S (Z.to_nat i)) by lia.
    reflexivity.
  - apply lookup_ge_None in Hid. rewrite drop_ge by lia. reflexivity.
Qed.

Lemma HasDataPoints_in_range (w : W) numBuckets :
  (Z.to_nat numBuckets <= length (blocks_ (ts w)))%nat ->
  HasDataPoints numBuckets w =
    (Return ((0 <? count_ (ts w))
             || any_valid (take (Z.to_nat numBuckets) (blocks_ (ts w)))), w).
Proof.
  intros Hn. unfold HasDataPoints. run.
  destruct (0 <? count_ (ts w)); [reflexivity|]. simpl.
  rewrite HasDataPoints_loop_in_range by (simpl; lia). reflexivity.
Qed.

(** X6: [HasDataPoints] with [numBuckets] within the array returns true
    exactly when the active bucket counts a point or one of the first
    [numBuckets] slots holds a valid identifier; it changes nothing. *)
Theorem X6_has_data_points_in_range (w : W) numBuckets :
  (Z.to_nat numBuckets <= length (blocks_ (ts w)))%nat ->
  HasDataPoints numBuckets w =
    (Return ((0 <? count_ (ts w))
             || any_valid (take (Z.to_nat numBuckets) (blocks_ (ts w)))), w).
Proof. apply HasDataPoints_in_range. Qed.

(** X7: [HasDataPoints] with [numBuckets] larger than the array. With a
    point counted it returns true without looking at the slots; with none
    it returns true if some slot is valid and panics with an index out of
    range if every slot is invalid. *)
Theorem X7_has_data_points_past_end (w : W) numBuckets :
  (length (blocks_ (ts w)) < Z.to_nat numBuckets)%nat ->
  HasDataPoints numBuckets w =
    if (0 <? count_ (ts w)) || any_valid (blocks_ (ts w))
    then (Return true, w) else (Panics IndexOutOfRange, w).
Proof.
  intros Hn. unfold HasDataPoints. run.
  destruct (0 <? count_ (ts w)); [reflexivity|]. simpl.
  rewrite HasDataPoints_loop_past_end by (simpl; lia). reflexivity.
Qed.

(** X8: a series that has just been reset with [n] slots has no data
    points: [HasDataPoints n] returns false, for every [n] and whatever the
    series held before. *)
Theorem X8_reset_has_no_data (b : BTS) n (st : BucketStorage) log :
  HasDataPoints n (mkWorld (Reset n b) st log)
    = (Return false, mkWorld (Reset n b) st log).
Proof.
  rewrite HasDataPoints_in_range by (simpl; rewrite length_replicate; lia).
  simpl. rewrite firstn_all2 by (rewrite length_replicate; lia).
  rewrite any_valid_replicate. reflexivity.
Qed.

(** *** The array of slots keeps its length *)

Lemma open_body_length tsid (w : W) r w' :
  open_body tsid w = (r, w') ->
  length (blocks_ (ts w')) = length (blocks_ (ts w)).
Proof.
  intros Hb. apply open_body_cases in Hb as [(id & _ & Hts & _)|[_ Hts]]; rewrite Hts.
  - simpl. apply length_insert.
  - reflexivity.
Qed.

Lemma open_length next tsid (w : W) r w' :
  open next tsid w = (r, w') ->
  length (blocks_ (ts w')) = length (blocks_ (ts w)).
Proof.
  unfold open. run. destruct (current_ (ts w) =? 0).
  - intros [= <- <-]. reflexivity.
  - apply (open_loop_inv (fun w1 : W => length (blocks_ (ts w1)) = length (blocks_ (ts w))));
      [|reflexivity].
    intros w1 r1 w2 HI _ Hb. rewrite (open_body_length _ _ _ _ Hb). exact HI.
Qed.

Lemma Put_length i tsid dp category (w : W) :
  length (blocks_ (ts (after (Put i tsid dp category) w))) = length (blocks_ (ts w)).
Proof.
  unfold after, Put. run.
  destruct (i <? current_ (ts w)); simpl; [reflexivity|].
  destruct (current_ (ts w) <? i).
  - destruct (open i tsid w) as [r w1] eqn:Ho. apply open_length in Ho.
    destruct r as [[e|]|p|]; simpl; try exact Ho.
    destruct (Series_Append _ _ _ _) as [s' [e|]]; simpl; [exact Ho|].
    destruct category; simpl; exact Ho.
  - simpl. destruct (Series_Append _ _ _ _) as [s' [e|]]; simpl; [reflexivity|].
    destruct category; reflexivity.
Qed.

Lemma SetCurrentBucket_length i tsid (w : W) :
  length (blocks_ (ts (after (SetCurrentBucket i tsid) w))) = length (blocks_ (ts w)).
Proof.
  unfold after, SetCurrentBucket. run.
  destruct (current_ (ts w) <? i); [|reflexivity].
  destruct (open i tsid w) as [r w1] eqn:Ho. apply open_length in Ho. exact Ho.
Qed.

Lemma SetDataBlock_length position numBuckets id (w : W) :
  length (blocks_ (ts (after (SetDataBlock position numBuckets id) w)))
    = length (blocks_ (ts w)).
Proof.
  unfold after, SetDataBlock. run.
  destruct (current_ (ts w) <=? position); simpl;
    (destruct (numBuckets =? 0); simpl; [reflexivity|]);
    match goal with |- context [?a <? Z.of_nat ?l] => destruct (a <? Z.of_nat l) end;
    simpl; try reflexivity; apply length_insert.
Qed.

(** X9: the array of historical slots never changes its length: after any
    call of any operation, however it ends, [blocks_] has the length
    [Reset] gave it. *)
Theorem X9_slot_count_is_fixed (c : Call) (w : W) :
  length (blocks_ (ts (exec c w))) = length (blocks_ (ts w)).
Proof.
  destruct c as [i t dp cat|b e|i t| |p n id|n| | |cat]; simpl.
  - apply Put_length.
  - rewrite Get_ts. reflexivity.
  - apply SetCurrentBucket_length.
  - reflexivity.
  - apply SetDataBlock_length.
  - rewrite HasDataPoints_world. reflexivity.
  - reflexivity.
  - reflexivity.
  - reflexivity.
Qed.

(** *** Reading one closed bucket *)

Lemma Get_single (w : W) j :
  is_uint32 (current_ (ts w)) ->
  0 < NumBuckets (storage w) <= Z.of_nat (length (blocks_ (ts w))) ->
  0 <= j < current_ (ts w) ->
  current_ (ts w) - NumBuckets (storage w) <= j ->
  exists id,
    blocks_ (ts w) !! Z.to_nat (j mod NumBuckets (storage w)) = Some id /\
    Get j j w =
      (Return (match snd (Fetch (storage w) j id) with
               | inl (data, count) => [mkBlock data count]
               | inr _ => []
               end, None),
       mkWorld (ts w) (fst (Fetch (storage w) j id))
         (calls w ++ [EvFetch j id (snd (Fetch (storage w) j id))])).
Proof.
  intros Hc Hn Hj Hwin.
  destruct (lookup_lt_is_Some_2 (blocks_ (ts w)) (Z.to_nat (j mod NumBuckets (storage w))))
    as [id Hid]; [apply slot_in_range; exact Hn|].
  exists id. split; [exact Hid|].
  rewrite Get_unfold by (try assumption; lia). simpl.
  assert (Hb : clamp_begin (current_ (ts w)) (NumBuckets (storage w)) j = j).
  { unfold clamp_begin. destruct (NumBuckets (storage w) <=? current_ (ts w)) eqn:E; lia. }
  assert (He : clamp_end (current_ (ts w)) j = j).
  { unfold clamp_end. destruct (1 <=? current_ (ts w)) eqn:E; lia. }
  rewrite Hb, He. replace (Z.to_nat (j - j + 1)) with 1%nat by lia.
  rewrite Get_loop_S. rewrite Z.leb_refl.
  destruct (NumBuckets (storage w) =? 0) eqn:En; [lia|].
  rewrite Hid. destruct (Fetch (storage w) j id) as [st' res]. simpl.
  rewrite wrap32_id by ranges.
  destruct (j + 1 <=? j) eqn:E1; [lia|].
  destruct (j <=? current_ (ts w)) eqn:E2; [|lia].
  destruct (current_ (ts w) <=? j) eqn:E3; [lia|]. simpl.
  rewrite app_nil_r. reflexivity.
Qed.

(** X10: reading one closed bucket. For a bucket [j] below the current one
    and within the last [n] buckets, [Get j j] makes exactly one call,
    [Fetch] of bucket [j] with the identifier in slot [j mod n]; it returns
    that block alone when the fetch succeeds and the empty result when it
    fails, never an error, and leaves the series as it was. *)
Theorem X10_get_single_bucket (w : W) j :
  is_uint32 (current_ (ts w)) ->
  0 < NumBuckets (storage w) <= Z.of_nat (length (blocks_ (ts w))) ->
  0 <= j < current_ (ts w) ->
  current_ (ts w) - NumBuckets (storage w) <= j ->
  exists id,
    blocks_ (ts w) !! Z.to_nat (j mod NumBuckets (storage w)) = Some id /\
    Get j j w =
      (Return (match snd (Fetch (storage w) j id) with
               | inl (data, count) => [mkBlock data count]
               | inr _ => []
               end, None),
       mkWorld (ts w) (fst (Fetch (storage w) j id))
         (calls w ++ [EvFetch j id (snd (Fetch (storage w) j id))])).
Proof. apply Get_single. Qed.

(** *** Writing a slot and reading it back *)

Lemma open_capacity next tsid (w : W) r w' :
  stable_capacity ->
  open next tsid w = (r, w') ->
  NumBuckets (storage w') = NumBuckets (storage w).
Proof.
  intros Hstable. unfold open. run. destruct (current_ (ts w) =? 0).
  - intros [= <- <-]. reflexivity.
  - apply (open_loop_inv
             (fun w1 : W => NumBuckets (storage w1) = NumBuckets (storage w)));
      [|reflexivity].
    intros w1 r1 w2 HI _ Hb.
    apply open_body_calls in Hb as [(_ & -> & _)|(_ & res & HS & _)]; [exact HI|].
    rewrite <- HI.
    rewrite <- (Hstable (storage w1) (current_ (ts w1)) (Stream (Bs (stream_ (ts w1))))
                  (count_ (ts w1)) tsid), HS. reflexivity.
Qed.

(** X11: what a rotation stored is what a read fetches. After a rotation
    from [current_] to [next] that returned without error, a read of one
    bucket [j] closed by it (and still within the last [n] buckets) makes
    exactly one call: [Fetch] of bucket [j] with the identifier the
    rotation produced for [j], the store's answer for a bucket that held
    points and the invalid identifier for an empty one. *)
Theorem X11_rotation_then_read (w w1 : W) next tsid j :
  stable_capacity ->
  0 < NumBuckets (storage w) <= Z.of_nat (length (blocks_ (ts w))) ->
  0 < current_ (ts w) <= j -> j < next -> next <= math_MaxUint32 ->
  next - NumBuckets (storage w) <= j ->
  open next tsid w = (Return None, w1) ->
  exists w2 res,
    Get j j w1 =
      (Return (match res with
               | inl (data, count) => [mkBlock data count]
               | inr _ => []
               end, None), w2) /\
    new_calls w1 w2 = [EvFetch j (produced_id (new_calls w w1) j) res].
Proof.
  intros Hstable Hn Hc Hj Hmax Hwin Ho.
  pose proof (open_capacity _ _ _ _ _ Hstable Ho) as Hcap.
  pose proof (open_length _ _ _ _ _ Ho) as Hlen.
  destruct (open_ok_state next tsid w w1 ltac:(lia) Hmax Ho) as [Hcur _].
  unfold open in Ho. run. destruct (current_ (ts w) =? 0) eqn:E; [lia|].
  apply open_loop_window in Ho as (log & Hcalls & Hslots); auto; try lia.
  destruct (Get_single w1 j) as (id & Hid & HG).
  - rewrite Hcur. ranges.
  - rewrite Hcap, Hlen. exact Hn.
  - lia.
  - rewrite Hcap. lia.
  - rewrite Hcap, (Hslots j ltac:(lia) ltac:(lia)) in Hid. injection Hid as <-.
    rewrite (new_calls_app _ _ _ Hcalls).
    eexists _, _. split; [exact HG|].
    apply new_calls_app. reflexivity.
Qed.

(** X12: [SetDataBlock] at or above the current bucket. It opens bucket
    [position + 1] empty, dropping the points buffered so far without any
    store call, and records [id] for [position]; the recency counter is
    kept. From then on a [Put] to [position] is rejected as stale, and a
    read of bucket [position] fetches exactly the identifier that was
    set. *)
Theorem X12_set_data_block_forward (w : W) position id :
  0 <= current_ (ts w) <= position -> position < math_MaxUint32 ->
  0 < NumBuckets (storage w) <= Z.of_nat (length (blocks_ (ts w))) ->
  exists w1,
    SetDataBlock position (NumBuckets (storage w)) id w = (Return tt, w1) /\
    ts w1 =
      {| stream_ := Series_Reset (stream_ (ts w));
         count_ := 0;
         current_ := position + 1;
         queriedBucketsAgo_ := queriedBucketsAgo_ (ts w);
         blocks_ := <[Z.to_nat (position mod NumBuckets (storage w)) := id]>
                      (blocks_ (ts w)) |} /\
    storage w1 = storage w /\
    calls w1 = calls w /\
    (forall tsid dp category,
        Put position tsid dp category w1
          = (Return (Some "Invalid bucket number!"%string), w1)) /\
    new_calls w1 (after (Get position position) w1)
      = [EvFetch position id (snd (Fetch (storage w) position id))].
Proof.
  intros Hc Hmax Hn.
  assert (Hpos : 0 < NumBuckets (storage w)) by lia.
  pose proof (Z.mod_pos_bound position (NumBuckets (storage w)) Hpos) as Hmod.
  eexists. split.
  { unfold SetDataBlock. run.
    destruct (current_ (ts w) <=? position) eqn:E; [|lia]. simpl.
    destruct (NumBuckets (storage w) =? 0) eqn:En; [lia|]. simpl.
    destruct (position mod NumBuckets (storage w) <? Z.of_nat (length (blocks_ (ts w))))
      eqn:Ei; [|lia].
    simpl. rewrite wrap32_id by ranges. reflexivity. }
  simpl. split; [reflexivity|]. split; [reflexivity|]. split; [reflexivity|]. split.
  - intros tsid dp category. unfold Put. run.
    destruct (position <? position + 1) eqn:E; [reflexivity|lia].
  - match goal with |- new_calls ?w1 _ = _ => destruct (Get_single w1 position)
      as (id' & Hid & HG) end; simpl.
    + ranges.
    + rewrite length_insert. exact Hn.
    + lia.
    + lia.
    + simpl in Hid. rewrite list_lookup_insert_eq in Hid by lia. injection Hid as <-.
      unfold after. rewrite HG. simpl. apply new_calls_app. reflexivity.
Qed.

(** *** A point that was put can be read *)

Lemma Put_ok_state i tsid dp category (w w1 : W) :
  is_uint32 i -> is_uint32 (current_ (ts w)) ->
  Put i tsid dp category w = (Return None, w1) ->
  current_ (ts w1) = i /\
  (count_ (ts w1) = wrap16 (count_ (ts w) + 1) \/ count_ (ts w1) = 1).
Proof.
  intros Hi Hc. unfold Put. run.
  destruct (i <? current_ (ts w)) eqn:E; [discriminate|].
  destruct (current_ (ts w) <? i) eqn:E'.
  - destruct (open i tsid w) as [r w0] eqn:Ho.
    destruct r as [[e|]|p|]; simpl; try discriminate.
    assert (Hst : current_ (ts w0) = i /\
                  (count_ (ts w0) = count_ (ts w) \/ count_ (ts w0) = 0)).
    { destruct (Z.eq_dec (current_ (ts w)) 0) as [H0|H0].
      - rewrite open_sentinel in Ho by exact H0. injection Ho as <-. simpl. auto.
      - destruct (open_ok_state i tsid w w0) as [? ?]; auto; ranges. }
    destruct Hst as [Hcur Hcnt].
    destruct (Series_Append _ _ _ _) as [s' [e|]]; simpl; try discriminate.
    destruct category; simpl; intros [= <-]; simpl;
      (split; [exact Hcur|]); destruct Hcnt as [-> | ->]; auto.
  - simpl. destruct (Series_Append _ _ _ _) as [s' [e|]]; simpl; try discriminate.
    destruct category; simpl; intros [= <-]; simpl; (split; [lia|]); auto.
Qed.

(** X13: a point that was put is readable at once. After a [Put] to bucket
    [i] that returned without error, every read whose range contains [i]
    returns, and the last element of its result is the live bucket: the
    active stream's bytes and the point counter as the put left them. *)
Theorem X13_put_then_get (w w1 : W) i tsid dp category begin end_ :
  is_uint32 i -> is_uint32 (current_ (ts w)) ->
  Put i tsid dp category w = (Return None, w1) ->
  0 < NumBuckets (storage w1) <= Z.of_nat (length (blocks_ (ts w1))) ->
  begin <= i <= end_ ->
  exists out w2,
    Get begin end_ w1 = (Return (out, None), w2) /\
    last out = Some {| Data := Series_ReadData (stream_ (ts w1));
                       Count := count_ (ts w1) |}.
Proof.
  intros Hi Hc HP Hn Hr.
  destruct (Put_ok_state _ _ _ _ _ _ Hi Hc HP) as [Hcur _].
  assert (Hc1 : is_uint32 (current_ (ts w1))) by (rewrite Hcur; exact Hi).
  rewrite Get_unfold by (try assumption; lia). simpl.
  pose proof (clamp_begin_bounds (current_ (ts w1)) (NumBuckets (storage w1)) begin
                ltac:(ranges)) as (Hb0 & _).
  pose proof (clamp_end_bounds (current_ (ts w1)) end_ Hc1) as (He & _).
  edestruct (Get_loop_ok (NumBuckets (storage w1)) (clamp_end (current_ (ts w1)) end_)
               (Z.to_nat (clamp_end (current_ (ts w1)) end_
                 - clamp_begin (current_ (ts w1)) (NumBuckets (storage w1)) begin + 1))
               (clamp_begin (current_ (ts w1)) (NumBuckets (storage w1)) begin) [] w1)
    as (w2 & log & Hl & _); [lia|lia|exact Hn|lia|].
  rewrite Hl. rewrite Hcur.
  destruct (begin <=? i) eqn:E1; [|lia]. destruct (i <=? end_) eqn:E2; [|lia]. simpl.
  eexists _, w2. split; [reflexivity|]. apply last_snoc.
Qed.

(** X14: after a [Put] that returned without error the series has data
    points, whatever [numBuckets] is passed to [HasDataPoints] (the slots
    are not looked at), provided the put did not take the counter past its
    16 bits. *)
Theorem X14_put_then_has_data_points (w w1 : W) i tsid dp category numBuckets :
  is_uint32 i -> is_uint32 (current_ (ts w)) ->
  0 <= count_ (ts w) < math_MaxUint16 ->
  Put i tsid dp category w = (Return None, w1) ->
  HasDataPoints numBuckets w1 = (Return true, w1).
Proof.
  intros Hi Hc Hcnt HP.
  destruct (Put_ok_state _ _ _ _ _ _ Hi Hc HP) as [_ Hcnt1].
  assert (H1 : 0 < count_ (ts w1)).
  { destruct Hcnt1 as [-> | ->]; [|lia]. ranges. }
  unfold HasDataPoints. run.
  destruct (0 <? count_ (ts w1)) eqn:E; [reflexivity|lia].
Qed.

(** *** Which calls reach the store *)

Lemma Get_loop_fetch_only n e : forall fuel i out (w : W) r w',
  Get_loop fuel n i e out w = (r, w') ->
  exists log, calls w' = calls w ++ log /\ store_buckets log = [].
Proof.
  assert (Hnone : forall w : W, exists log, calls w = calls w ++ log /\ store_buckets log = []).
  { intros w. exists []. rewrite app_nil_r. split; reflexivity. }
  induction fuel as [|fuel IH]; intros i out w r w'.
  - rewrite Get_loop_O. destruct (i <=? e); intros [= <- <-]; apply Hnone.
  - rewrite Get_loop_S. destruct (i <=? e); [|intros [= <- <-]; apply Hnone].
    destruct (n =? 0); [intros [= <- <-]; apply Hnone|].
    destruct (blocks_ (ts w) !! Z.to_nat (i mod n)) as [id|];
      [|intros [= <- <-]; apply Hnone].
    destruct (Fetch (storage w) i id) as [st' res]. intros Hl.
    apply IH in Hl as (log & Hcalls & Hsb). simpl in Hcalls.
    exists (EvFetch i id res :: log).
    split; [rewrite Hcalls, <- app_assoc; reflexivity|exact Hsb].
Qed.

Lemma Get_loop_count n e : forall fuel i out (w : W) r w',
  0 <= i -> e < math_MaxUint32 ->
  Get_loop fuel n i e out w = (r, w') ->
  exists log, calls w' = calls w ++ log /\
              Z.of_nat (length log) <= Z.max 0 (e - i + 1).
Proof.
  assert (Hnone : forall (w : W) i, exists log, calls w = calls w ++ log /\
                    Z.of_nat (length log) <= Z.max 0 (e - i + 1)).
  { intros w i. exists []. rewrite app_nil_r. split; [reflexivity|simpl; lia]. }
  induction fuel as [|fuel IH]; intros i out w r w' Hi He.
  - rewrite Get_loop_O. destruct (i <=? e); intros [= <- <-]; apply Hnone.
  - rewrite Get_loop_S. destruct (i <=? e) eqn:Hie; [|intros [= <- <-]; apply Hnone].
    destruct (n =? 0); [intros [= <- <-]; apply Hnone|].
    destruct (blocks_ (ts w) !! Z.to_nat (i mod n)) as [id|];
      [|intros [= <- <-]; apply Hnone].
    destruct (Fetch (storage w) i id) as [st' res].
    rewrite wrap32_id by ranges. intros Hl.
    apply IH in Hl as (log & Hcalls & Hlen); [|lia|lia]. simpl in Hcalls.
    exists (EvFetch i id res :: log).
    split; [rewrite Hcalls, <- app_assoc; reflexivity|]. simpl length. lia.
Qed.

Lemma open_calls next tsid (w : W) r w' :
  open next tsid w = (r, w') ->
  calls w' = calls w \/
  exists res, calls w' = calls w ++
    [EvStore (current_ (ts w)) (Stream (Bs (stream_ (ts w)))) (count_ (ts w)) tsid res].
Proof.
  unfold open. run. destruct (current_ (ts w) =? 0).
  - intros [= <- <-]. left. reflexivity.
  - intros Hl. apply open_loop_one_store in Hl as [Hcalls _]. exact Hcalls.
Qed.

Lemma Put_calls i tsid dp category (w : W) :
  calls (after (Put i tsid dp category) w) = calls w \/
  exists res, calls (after (Put i tsid dp category) w) = calls w ++
    [EvStore (current_ (ts w)) (Stream (Bs (stream_ (ts w)))) (count_ (ts w)) tsid res].
Proof.
  unfold after, Put. run.
  destruct (i <? current_ (ts w)); simpl; [left; reflexivity|].
  destruct (current_ (ts w) <? i).
  - destruct (open i tsid w) as [r w1] eqn:Ho. apply open_calls in Ho.
    destruct r as [[e|]|p|]; simpl; try exact Ho.
    destruct (Series_Append _ _ _ _) as [s' [e|]]; simpl; [exact Ho|].
    destruct category; simpl; exact Ho.
  - simpl. destruct (Series_Append _ _ _ _) as [s' [e|]]; simpl; [left; reflexivity|].
    destruct category; left; reflexivity.
Qed.

Lemma SetCurrentBucket_calls i tsid (w : W) :
  calls (after (SetCurrentBucket i tsid) w) = calls w \/
  exists res, calls (after (SetCurrentBucket i tsid) w) = calls w ++
    [EvStore (current_ (ts w)) (Stream (Bs (stream_ (ts w)))) (count_ (ts w)) tsid res].
Proof.
  unfold after, SetCurrentBucket. run.
  destruct (current_ (ts w) <? i); [|left; reflexivity].
  destruct (open i tsid w) as [r w1] eqn:Ho. apply open_calls in Ho. exact Ho.
Qed.

Lemma SetDataBlock_store position numBuckets id (w : W) :
  storage (after (SetDataBlock position numBuckets id) w) = storage w /\
  calls (after (SetDataBlock position numBuckets id) w) = calls w.
Proof.
  unfold after, SetDataBlock. run.
  destruct (current_ (ts w) <=? position); simpl;
    (destruct (numBuckets =? 0); simpl; [split; reflexivity|]);
    match goal with |- context [?a <? Z.of_nat ?l] => destruct (a <? Z.of_nat l) end;
    simpl; split; reflexivity.
Qed.

(** X15: who talks to the block store. A [Get] only fetches: it never
    calls [Store]. [Put] and [SetCurrentBucket] never fetch and make at
    most one call, the [Store] of the bucket that was open. Every other
    operation ([SetQueried], [SetDataBlock], [HasDataPoints],
    [GetQueriedBucketsAgo], [GetCategory], [SetCategory]) leaves the store
    and the call log untouched. This holds however the call ends. *)
Theorem X15_store_access (c : Call) (w : W) :
  match c with
  | CGet _ _ => store_buckets (new_calls w (exec c w)) = []
  | CPut _ tsid _ _ | CSetCurrentBucket _ tsid =>
      new_calls w (exec c w) = [] \/
      exists res, new_calls w (exec c w) =
        [EvStore (current_ (ts w)) (Stream (Bs (stream_ (ts w)))) (count_ (ts w)) tsid res]
  | _ => storage (exec c w) = storage w /\ calls (exec c w) = calls w
  end.
Proof.
  assert (Hnew : forall (w' : W) ev,
    calls w' = calls w \/ (exists res, calls w' = calls w ++ [ev res]) ->
    new_calls w w' = [] \/ exists res : Z + error, new_calls w w' = [ev res]).
  { intros w' ev [H|[res H]].
    - left. apply new_calls_app. rewrite app_nil_r. exact H.
    - right. exists res. apply new_calls_app. exact H. }
  destruct c as [i t dp cat|b e|i t| |p n id|n| | |cat]; simpl.
  - apply (Hnew _ (fun res => EvStore _ _ _ t res)). apply Put_calls.
  - unfold after, Get. run.
    destruct (Get_loop _ _ _ _ _ w) as [r1 w1] eqn:Hl.
    apply Get_loop_fetch_only in Hl as (log & Hcalls & Hsb).
    assert (Hw : new_calls w w1 = log) by (apply new_calls_app; exact Hcalls).
    destruct r1; simpl; rewrite Hw; exact Hsb.
  - apply (Hnew _ (fun res => EvStore _ _ _ t res)). apply SetCurrentBucket_calls.
  - split; reflexivity.
  - apply SetDataBlock_store.
  - rewrite HasDataPoints_world. split; reflexivity.
  - split; reflexivity.
  - split; reflexivity.
  - split; reflexivity.
Qed.

(** X16: a bound on the cost of a read. Whatever range is asked for and
    however the call ends, a [Get] makes at most [max 1 n] fetches, [n]
    being the capacity the store reports, and never more than the number of
    buckets in the requested range. *)
Theorem X16_get_fetch_bound (w : W) begin end_ r w' :
  is_uint32 (current_ (ts w)) ->
  0 <= NumBuckets (storage w) ->
  Get begin end_ w = (r, w') ->
  Z.of_nat (length (new_calls w w')) <= Z.max 1 (NumBuckets (storage w)) /\
  Z.of_nat (length (new_calls w w')) <= Z.max 0 (end_ - begin + 1).
Proof.
  intros Hc Hn HG. rewrite Get_unfold in HG by assumption. simpl in HG.
  pose proof (clamp_begin_bounds (current_ (ts w)) (NumBuckets (storage w)) begin
                ltac:(ranges)) as (Hb0 & Hbn & Hbb).
  pose proof (clamp_end_bounds (current_ (ts w)) end_ Hc) as (He & Hee & He1 & He0).
  destruct (Get_loop _ _ _ _ _ w) as [r1 w1] eqn:Hl.
  apply Get_loop_count in Hl as (log & Hcalls & Hlen); [|lia|lia].
  assert (Hw : calls w' = calls w ++ log).
  { destruct r1; injection HG as <- <-; exact Hcalls. }
  rewrite (new_calls_app _ _ _ Hw).
  unfold is_uint32 in Hc.
  destruct (Z.eq_dec (current_ (ts w)) 0); lia.
Qed.

(** *** A store that reports no buckets *)

(** X17: with a capacity of zero the slot index cannot be computed and Go
    panics with a division by zero. A rotation panics on its first turn:
    at an empty bucket before anything has changed; at a non-empty bucket
    after the [Store] call, so the block is in the store while the series
    still holds the same points and no slot knows the identifier.
    [SetDataBlock] with [numBuckets = 0] always panics, and at or above the
    current bucket it has by then already opened [position + 1] and dropped
    the buffered points. *)
Theorem X17_zero_capacity_panics :
  (forall (w : W) next tsid,
      0 < current_ (ts w) < next -> next <= math_MaxUint32 ->
      count_ (ts w) <= 0 ->
      NumBuckets (storage w) = 0 ->
      open next tsid w = (Panics DivideByZero, w)) /\
  (forall (w : W) next tsid st' id,
      0 < current_ (ts w) < next -> next <= math_MaxUint32 ->
      0 < count_ (ts w) ->
      Store (storage w) (current_ (ts w)) (Stream (Bs (stream_ (ts w)))) (count_ (ts w)) tsid
        = (st', inl id) ->
      NumBuckets st' = 0 ->
      open next tsid w =
        (Panics DivideByZero,
         mkWorld (ts w) st'
           (calls w ++ [EvStore (current_ (ts w)) (Stream (Bs (stream_ (ts w))))
                          (count_ (ts w)) tsid (inl id)]))) /\
  (forall (w : W) position id,
      SetDataBlock position 0 id w =
        (Panics DivideByZero,
         if current_ (ts w) <=? position
         then with_ts w
                {| stream_ := Series_Reset (stream_ (ts w));
                   count_ := 0;
                   current_ := wrap32 (position + 1);
                   queriedBucketsAgo_ := queriedBucketsAgo_ (ts w);
                   blocks_ := blocks_ (ts w) |}
         else w)).
Proof.
  split; [|split].
  - intros w next tsid Hc Hmax Hcnt Hn. rewrite open_step by lia.
    unfold open_body. run.
    destruct (0 <? count_ (ts w)) eqn:E; [lia|]. rewrite Hn. simpl.
    destruct w; reflexivity.
  - intros w next tsid st' id Hc Hmax Hcnt HS Hn. rewrite open_step by lia.
    unfold open_body. run.
    destruct (0 <? count_ (ts w)) eqn:E; [|lia]. rewrite HS. simpl. rewrite Hn.
    reflexivity.
  - intros w position id. unfold SetDataBlock. run.
    destruct (current_ (ts w) <=? position); simpl; [reflexivity|].
    destruct w; reflexivity.
Qed.

(** *** SetCurrentBucket *)

(** X18: [SetCurrentBucket] is a no-op at or below the current bucket
    (nothing changes, not even the store). When it returns without error
    from a series in range, the current bucket is the larger of the old one
    and the target, and calling it again with the same target changes
    nothing. *)
Theorem X18_set_current_bucket :
  (forall (w : W) i tsid,
      i <= current_ (ts w) ->
      SetCurrentBucket i tsid w = (Return None, w)) /\
  (forall (w w1 : W) i tsid tsid',
      is_uint32 i -> is_uint32 (current_ (ts w)) ->
      SetCurrentBucket i tsid w = (Return None, w1) ->
      current_ (ts w1) = Z.max (current_ (ts w)) i /\
      SetCurrentBucket i tsid' w1 = (Return None, w1)).
Proof.
  assert (Hnoop : forall (w : W) i tsid,
    i <= current_ (ts w) -> SetCurrentBucket i tsid w = (Return None, w)).
  { intros w i tsid Hi. unfold SetCurrentBucket. run.
    destruct (current_ (ts w) <? i) eqn:E; [lia|reflexivity]. }
  split; [exact Hnoop|].
  intros w w1 i tsid tsid' Hi Hc HS.
  assert (Hcur : current_ (ts w1) = Z.max (current_ (ts w)) i).
  { unfold SetCurrentBucket in HS. run.
    destruct (current_ (ts w) <? i) eqn:E.
    - destruct (Z.eq_dec (current_ (ts w)) 0) as [H0|H0].
      + rewrite open_sentinel in HS by exact H0. injection HS as <-. simpl. lia.
      + destruct (open_ok_state i tsid w w1) as [-> _]; auto; ranges.
    - injection HS as <-. lia. }
  split; [exact Hcur|]. apply Hnoop. lia.
Qed.

(** *** Slots a rotation does not touch *)

(** X19: a rotation writes only the slots of the buckets it closes. After
    a rotation from [current_] to [next] that returned without error, every
    slot that is not the slot of a bucket [j] with
    [current_ <= j < next] holds what it held before. *)
Theorem X19_rotation_frame (w w' : W) next tsid k :
  stable_capacity ->
  0 < NumBuckets (storage w) ->
  0 < current_ (ts w) <= next -> next <= math_MaxUint32 ->
  open next tsid w = (Return None, w') ->
  (forall j, current_ (ts w) <= j < next ->
             Z.to_nat (j mod NumBuckets (storage w)) <> k) ->
  blocks_ (ts w') !! k = blocks_ (ts w) !! k.
Proof.
  intros Hstable Hn Hc Hmax Ho Hk.
  unfold open in Ho. run. destruct (current_ (ts w) =? 0) eqn:E; [lia|].
  set (I := fun w1 : W =>
    NumBuckets (storage w1) = NumBuckets (storage w) /\
    current_ (ts w) <= current_ (ts w1) <= next /\
    blocks_ (ts w1) !! k = blocks_ (ts w) !! k).
  assert (HI : I w').
  { apply (open_loop_ok_inv I next tsid) with (fuel := open_fuel (ts w) next) (w := w);
      [|unfold I; repeat split; lia|exact Ho].
    intros w1 w2 (Hn1 & Hb1 & Hsame) Hne Hb.
    pose proof Hb as Hb'.
    apply open_body_cases in Hb as [(id & _ & Hts & _)|[[[e H]|[p H]] _]];
      try discriminate.
    assert (Hn2 : NumBuckets (storage w2) = NumBuckets (storage w)).
    { apply open_body_calls in Hb' as [(_ & -> & _)|(_ & res & HS & _)]; [exact Hn1|].
      rewrite <- Hn1.
      rewrite <- (Hstable (storage w1) (current_ (ts w1)) (Stream (Bs (stream_ (ts w1))))
                    (count_ (ts w1)) tsid), HS. reflexivity. }
    unfold I. rewrite Hts, Hn2. simpl.
    rewrite wrap32_id by ranges.
    split; [reflexivity|]. split; [lia|].
    rewrite list_lookup_insert_ne; [exact Hsame|].
    apply Hk. lia. }
  destruct HI as (_ & _ & Hsame). exact Hsame.
Qed.

End MoreFacts.

(** ** The service's write entry point (TsdbService.Put) *)

(** [TsdbService.Put] hands each data point of a request to the bucket map
    of its shard. The bucket map ([BucketMap]) lives elsewhere in the
    package and is an interface here; the request and the fields the code
    dereferences are taken to be non-nil. *)
Module Service.

(** [PutResponse.N] is a signed 32-bit counter. *)
Definition wrap_int32 (x : Z) : Z := (x + 2 ^ 31) mod 2 ^ 32 - 2 ^ 31.

Record Key := mkKey {
  Key_ : bytes;
  ShardId : Z;
}.

Record DataPoint (Value : Type) := mkDataPoint {
  DataPoint_Key : Key;
  DataPoint_Value : TimeValuePair Value;
}.
Arguments mkDataPoint {Value}.
Arguments DataPoint_Key {Value}.
Arguments DataPoint_Value {Value}.

Record PutRequest (Value : Type) := mkPutRequest {
  Data : list (DataPoint Value);
}.
Arguments mkPutRequest {Value}.
Arguments Data {Value}.

Record PutResponse := mkPutResponse {
  N : Z;
}.

(** [BucketMap.Put(key, value, category, skipStateCheck)] returns
    [(newRows, dataPoints, err)] and may change the bucket map. *)
Class BucketMapMethods (BucketMap Value : Type) := {
  BucketMap_Put : BucketMap -> bytes -> TimeValuePair Value -> Z -> bool ->
                  BucketMap * (Z * Z * option error);
  NOT_OWNED : Z;
}.

Record TsdbService (BucketMap : Type) := mkService {
  buckets : gmap Z BucketMap;
  ids : list Z;
}.
Arguments mkService {BucketMap}.
Arguments buckets {BucketMap}.
Arguments ids {BucketMap}.

Section Put.

Context {BucketMap Value : Type}.
Context `{BM : BucketMapMethods BucketMap Value}.

(** [for _, data := range req.Data { ... }] with the response built so far;
    a [return] inside the loop ends it. *)
Fixpoint Put_loop (data : list (DataPoint Value)) (t : TsdbService BucketMap)
    (res : PutResponse) : TsdbService BucketMap * (PutResponse * option error) :=
  match data with
  | [] => (t, (res, None))
  | d :: rest =>
      match buckets t !! ShardId (DataPoint_Key d) with
      | None => (t, (res, Some "key not exit"%string))
      | Some m =>
          let '(m', (newRows, dataPoints, err)) :=
            BucketMap_Put m (Key_ (DataPoint_Key d))
              (mkTimeValuePair (Timestamp (DataPoint_Value d)) (Value_ (DataPoint_Value d)))
              0 false in
          let t' := mkService (<[ShardId (DataPoint_Key d) := m']> (buckets t)) (ids t) in
          match err with
          | Some e => (t', (res, Some e))
          | None =>
              if (newRows =? NOT_OWNED) && (dataPoints =? NOT_OWNED)
              then (t', (res, Some "key not own!"%string))
              else Put_loop rest t' (mkPutResponse (wrap_int32 (N res + 1)))
          end
      end
  end.

Definition Put (t : TsdbService BucketMap) (req : PutRequest Value)
  : TsdbService BucketMap * (PutResponse * option error) :=
  Put_loop (Data req) t (mkPutResponse 0).

(** Adding to a signed 32-bit counter [k] times. *)
Lemma wrap_int32_succ x : wrap_int32 (wrap_int32 x + 1) = wrap_int32 (x + 1).
Proof.
  unfold wrap_int32. change (2 ^ 31) with 2147483648. change (2 ^ 32) with 4294967296.
  Z.div_mod_to_equations. lia.
Qed.

(** The loop over a request split in two: the second part runs from where
    the first part ended, unless the first part returned an error. *)
Lemma Put_loop_app pre rest : forall t res,
  Put_loop (pre ++ rest) t res =
  match Put_loop pre t res with
  | (t', (res', None)) => Put_loop rest t' res'
  | r => r
  end.
Proof.
  induction pre as [|d pre IH]; intros t res; simpl; [reflexivity|].
  destruct (buckets t !! ShardId (DataPoint_Key d)) as [m|]; [|reflexivity].
  destruct (BucketMap_Put m _ _ 0 false) as [m' [[nr dpn] [e|]]]; [reflexivity|].
  destruct ((nr =? NOT_OWNED) && (dpn =? NOT_OWNED)); [reflexivity|]. apply IH.
Qed.

Lemma Put_loop_counts data : forall t n,
  match Put_loop data t (mkPutResponse (wrap_int32 n)) with
  | (_, (res, None)) => N res = wrap_int32 (n + Z.of_nat (length data))
  | (t', (res, Some e)) =>
      exists k, (k < length data)%nat /\
                N res = wrap_int32 (n + Z.of_nat k) /\
                exists tk,
                  Put_loop (take k data) t (mkPutResponse (wrap_int32 n))
                    = (tk, (res, None)) /\
                  Put_loop (drop k data) tk res = (t', (res, Some e))
  end.
Proof.
  induction data as [|d rest IH]; intros t n.
  - simpl. rewrite Z.add_0_r. reflexivity.
  - simpl.
    destruct (buckets t !! ShardId (DataPoint_Key d)) as [m|] eqn:Hm.
    2:{ exists 0%nat. rewrite Z.add_0_r.
        split; [simpl; lia|]. split; [reflexivity|]. exists t.
        split; [reflexivity|]. simpl. rewrite Hm. reflexivity. }
    destruct (BucketMap_Put m _ _ 0 false) as [m' [[nr dpn] [e|]]] eqn:HP.
    { exists 0%nat. rewrite Z.add_0_r.
      split; [simpl; lia|]. split; [reflexivity|]. exists t.
      split; [reflexivity|]. simpl. rewrite Hm, HP. reflexivity. }
    destruct ((nr =? NOT_OWNED) && (dpn =? NOT_OWNED)) eqn:Hown.
    { exists 0%nat. rewrite Z.add_0_r.
      split; [simpl; lia|]. split; [reflexivity|]. exists t.
      split; [reflexivity|]. simpl. rewrite Hm, HP, Hown. reflexivity. }
    rewrite wrap_int32_succ.
    specialize (IH (mkService (<[ShardId (DataPoint_Key d) := m']> (buckets t)) (ids t))
                   (n + 1)).
    destruct (Put_loop rest _ _) as [t' [res [e|]]].
    + destruct IH as (k & Hk & HN & tk & Htake & Hdrop).
      exists (S k). split; [simpl; lia|]. split; [rewrite HN; f_equal; lia|].
      exists tk. split; [|exact Hdrop].
      simpl. rewrite Hm, HP, Hown, wrap_int32_succ. exact Htake.
    + rewrite IH. f_equal. lia.
Qed.

Lemma Put_loop_dom data : forall t res,
  dom (buckets (fst (Put_loop data t res))) = dom (buckets t).
Proof.
  induction data as [|d rest IH]; intros t res; simpl; [reflexivity|].
  destruct (buckets t !! ShardId (DataPoint_Key d)) as [m|] eqn:Hm; [|reflexivity].
  assert (Hdom : forall m', dom (<[ShardId (DataPoint_Key d) := m']> (buckets t))
                            = dom (buckets t)).
  { intros m'. apply dom_insert_lookup_L. eauto. }
  destruct (BucketMap_Put m _ _ 0 false) as [m' [[nr dpn] [e|]]]; simpl; [apply Hdom|].
  destruct ((nr =? NOT_OWNED) && (dpn =? NOT_OWNED)); simpl; [apply Hdom|].
  rewrite IH. simpl. apply Hdom.
Qed.

(** X20: [N] counts the points that were stored. When [TsdbService.Put]
    returns without error, [N] is the number of points of the request (as
    a signed 32-bit number). When it returns an error, [N] is the position
    [k] of the point that failed: the [k] points before it went through as
    in an error-free request of just those points and stay stored, and no
    point after it was handed to a bucket map. *)
Theorem X20_put_counts_stored_points (t : TsdbService BucketMap) (req : PutRequest Value) :
  match Put t req with
  | (_, (res, None)) => N res = wrap_int32 (Z.of_nat (length (Data req)))
  | (t', (res, Some e)) =>
      exists k, (k < length (Data req))%nat /\
                N res = wrap_int32 (Z.of_nat k) /\
                exists tk,
                  Put t (mkPutRequest (take k (Data req))) = (tk, (res, None)) /\
                  Put_loop (drop k (Data req)) tk res = (t', (res, Some e))
  end.
Proof.
  unfold Put. simpl.
  pose proof (Put_loop_counts (Data req) t 0) as H.
  change (wrap_int32 0) with 0 in H. exact H.
Qed.

(** X21: shards. [TsdbService.Put] never adds or removes a shard: the set
    of shard ids with a bucket map is the same after the call, whatever the
    request. A point for a shard that has no bucket map ends the request
    with the error "key not exit", with the service as the points before it
    left it; at the head of the request nothing changes and [N] is 0. *)
Theorem X21_put_shards :
  (forall (t : TsdbService BucketMap) (req : PutRequest Value),
      dom (buckets (fst (Put t req))) = dom (buckets t)) /\
  (forall (t : TsdbService BucketMap) d rest,
      buckets t !! ShardId (DataPoint_Key d) = None ->
      Put t (mkPutRequest (d :: rest))
        = (t, (mkPutResponse 0, Some "key not exit"%string))) /\
  (forall (t t1 : TsdbService BucketMap) pre d rest res,
      Put t (mkPutRequest pre) = (t1, (res, None)) ->
      buckets t !! ShardId (DataPoint_Key d) = None ->
      Put t (mkPutRequest (pre ++ d :: rest))
        = (t1, (res, Some "key not exit"%string))).
Proof.
  split; [|split].
  - intros t req. apply Put_loop_dom.
  - intros t d rest Hm. unfold Put. simpl. rewrite Hm. reflexivity.
  - intros t t1 pre d rest res Hpre Hm. unfold Put in *. simpl in *.
    rewrite Put_loop_app, Hpre. simpl.
    assert (Hm1 : buckets t1 !! ShardId (DataPoint_Key d) = None).
    { apply not_elem_of_dom.
      replace t1 with (fst (Put_loop pre t (mkPutResponse 0))) by (rewrite Hpre; reflexivity).
      rewrite Put_loop_dom. apply not_elem_of_dom. exact Hm. }
    rewrite Hm1. reflexivity.
Qed.

End Put.

End Service.

(** ** More concrete worlds *)

(** A store that can refuse: it holds at most [room] blocks and answers
    "store is full" beyond that. *)
Module Flaky.

Record store := mkStore {
  room : Z;
  inner : Sample.store;
}.

#[export] Instance bucket_storage : StorageMethods store := {|
  NumBuckets := fun st => Sample.capacity (inner st);
  Store := fun st bucket data count tsid =>
    if room st <=? Z.of_nat (length (Sample.held (inner st)))
    then (st, inr "store is full"%string)
    else (mkStore (room st)
            (fst (Store (StorageMethods := Sample.bucket_storage)
                    (inner st) bucket data count tsid)),
          snd (Store (StorageMethods := Sample.bucket_storage)
                 (inner st) bucket data count tsid));
  Fetch := fun st bucket id =>
    (mkStore (room st)
       (fst (Fetch (StorageMethods := Sample.bucket_storage) (inner st) bucket id)),
     snd (Fetch (StorageMethods := Sample.bucket_storage) (inner st) bucket id));
|}.

(** Bucket 5 open with one point, over a store with no room left. *)
Definition full5 : World (list (Z * Z)) store :=
  mkWorld (ts Sample.after_put5) (mkStore 0 (Sample.mkStore 3 [])) [].

End Flaky.

Module Sample2.

Import Sample.

(** Bucket 5 open with its point counter at the largest 16-bit value. *)
Definition brimful5 : world :=
  mkWorld (mkBTS (mkSeries [(100, 1)] 0) 65535 5 255 [0; 0; 0]) (mkStore 3 []) [].

(** Bucket 5 open, empty, over a store that reports no buckets. *)
Definition no_buckets5 : world :=
  mkWorld (ts idle5) (mkStore 0 []) [].

(** Bucket 5 open with one point, over a store that reports no buckets
    after a [Store]. *)
Definition no_buckets5_put : world :=
  mkWorld (ts after_put5) (mkStore 0 []) [].

(** A bucket map that keeps the points it is given. *)
#[export] Instance bucket_map : Service.BucketMapMethods (list (bytes * Z)) Z := {|
  Service.BucketMap_Put := fun m key v _ _ => (m ++ [(key, Timestamp v)], (1, 1, None));
  Service.NOT_OWNED := -1;
|}.

(** A service with one shard, number 1. *)
Definition one_shard : Service.TsdbService (list (bytes * Z)) :=
  Service.mkService {[ 1 := [] ]} [1].

Definition dp_for (shard t : Z) : Service.DataPoint Z :=
  Service.mkDataPoint (Service.mkKey [] shard) (point t 0).

End Sample2.

(** ** The further properties on concrete worlds *)

Section MoreOnSample.

Import Flaky.
Import Sample.
Import Sample2.

Ltac by_eval :=
  vm_compute; repeat split;
  first [reflexivity | let H := fresh in intro H; discriminate H].

Lemma pair_eta' {A B} (p : A * B) : p = (fst p, snd p).
Proof. now destruct p. Qed.

Lemma X1_open_one_store_witness :
  (new_calls after_put5 (snd (open 7 1 after_put5)) = [] \/
   exists res, new_calls after_put5 (snd (open 7 1 after_put5)) =
     [EvStore (current_ (ts after_put5)) (Stream (Bs (stream_ (ts after_put5))))
        (count_ (ts after_put5)) 1 res]) /\
  (forall e, fst (open 7 1 after_put5) = Return (Some e) ->
     ts (snd (open 7 1 after_put5)) = ts after_put5 /\
     new_calls after_put5 (snd (open 7 1 after_put5)) =
       [EvStore (current_ (ts after_put5)) (Stream (Bs (stream_ (ts after_put5))))
          (count_ (ts after_put5)) 1 (inr e)]).
Proof.
  apply (X1_open_one_store after_put5 7 1 _ _ (pair_eta' _)).
Defined.

Lemma X2_flush_failure_keeps_series_witness :
  Put 7 1 (point 200 2) None full5 =
    (Return (Some "store is full"%string),
     mkWorld (ts full5) (storage full5)
       (calls full5 ++ [EvStore (current_ (ts full5)) (Stream (Bs (stream_ (ts full5))))
                          (count_ (ts full5)) 1 (inr "store is full"%string)])) /\
  SetCurrentBucket 7 1 full5 =
    (Return (Some "store is full"%string),
     mkWorld (ts full5) (storage full5)
       (calls full5 ++ [EvStore (current_ (ts full5)) (Stream (Bs (stream_ (ts full5))))
                          (count_ (ts full5)) 1 (inr "store is full"%string)])).
Proof.
  destruct (X2_flush_failure_keeps_series (Value := Z) full5 7 1 (storage full5)
              "store is full"%string) as [HPut HSet];
    [by_eval | by_eval | by_eval | reflexivity |].
  split; [apply HPut|exact HSet].
Defined.

Lemma X3_put_new_bucket_witness :
  current_ (ts after_put7) = 7 /\
  count_ (ts after_put7) = 1 /\
  queriedBucketsAgo_ (ts after_put7) =
    Z.min (queriedBucketsAgo_ (ts after_put5) + (7 - current_ (ts after_put5))) 255.
Proof.
  apply (X3_put_new_bucket after_put5 7 1 (point 200 2) None after_put7);
    [by_eval | by_eval | by_eval | vm_compute; reflexivity].
Defined.

Lemma X4_put_append_rejected_witness :
  Put (current_ (ts after_put5)) 1 (point 110 2) (Some 9) after_put5 =
    (Return (Some "timestamp too close"%string),
     with_ts after_put5 (with_stream (ts after_put5) (stream_ (ts after_put5)))).
Proof.
  destruct (X4_put_append_rejected (BitStream := list (Z * Z)) (Value := Z)
              (BucketStorage := store)) as [Hsame _].
  apply Hsame. reflexivity.
Defined.

Lemma X5_counter_wraps_and_bucket_is_dropped_witness :
  exists w1 w2,
    Put (current_ (ts brimful5)) 1 (point 200 2) None brimful5 = (Return None, w1) /\
    count_ (ts w1) = 0 /\
    open 6 1 w1 = (Return None, w2) /\
    storage w2 = storage brimful5 /\
    calls w2 = calls brimful5 /\
    blocks_ (ts w2) !! Z.to_nat (current_ (ts brimful5) mod NumBuckets (storage brimful5))
      = Some INVALID_ID.
Proof.
  apply (X5_counter_wraps_and_bucket_is_dropped brimful5 1 (point 200 2) None
           (mkSeries [(100, 1); (200, 2)] 0) 6);
    [by_eval | by_eval | reflexivity | reflexivity | by_eval].
Defined.

Lemma X6_has_data_points_in_range_witness :
  HasDataPoints 3 idle5 =
    (Return ((0 <? count_ (ts idle5))
             || any_valid (take (Z.to_nat 3) (blocks_ (ts idle5)))), idle5).
Proof.
  apply X6_has_data_points_in_range. vm_compute. lia.
Defined.

Lemma X7_has_data_points_past_end_witness :
  HasDataPoints 4 fresh =
    if (0 <? count_ (ts fresh)) || any_valid (blocks_ (ts fresh))
    then (Return true, fresh) else (Panics IndexOutOfRange, fresh).
Proof.
  apply X7_has_data_points_past_end. vm_compute. lia.
Defined.

Lemma X10_get_single_bucket_witness :
  exists id,
    blocks_ (ts after_put8) !! Z.to_nat (7 mod NumBuckets (storage after_put8)) = Some id /\
    Get 7 7 after_put8 =
      (Return (match snd (Fetch (storage after_put8) 7 id) with
               | inl (data, count) => [mkBlock data count]
               | inr _ => []
               end, None),
       mkWorld (ts after_put8) (fst (Fetch (storage after_put8) 7 id))
         (calls after_put8 ++ [EvFetch 7 id (snd (Fetch (storage after_put8) 7 id))])).
Proof.
  apply (X10_get_single_bucket after_put8 7); by_eval.
Defined.

Lemma X11_rotation_then_read_witness :
  exists w2 res,
    Get 5 5 (snd (open 7 1 after_put5)) =
      (Return (match res with
               | inl (data, count) => [mkBlock data count]
               | inr _ => []
               end, None), w2) /\
    new_calls (snd (open 7 1 after_put5)) w2 =
      [EvFetch 5 (produced_id (new_calls after_put5 (snd (open 7 1 after_put5))) 5) res].
Proof.
  apply (X11_rotation_then_read after_put5 (snd (open 7 1 after_put5)) 7 1 5
           sample_stable_capacity);
    [by_eval | by_eval | by_eval | by_eval | by_eval | vm_compute; reflexivity].
Defined.

Lemma X12_set_data_block_forward_witness :
  exists w1,
    SetDataBlock 6 (NumBuckets (storage after_put5)) 42 after_put5 = (Return tt, w1) /\
    ts w1 =
      {| stream_ := Series_Reset (stream_ (ts after_put5));
         count_ := 0;
         current_ := 6 + 1;
         queriedBucketsAgo_ := queriedBucketsAgo_ (ts after_put5);
         blocks_ := <[Z.to_nat (6 mod NumBuckets (storage after_put5)) := 42]>
                      (blocks_ (ts after_put5)) |} /\
    storage w1 = storage after_put5 /\
    calls w1 = calls after_put5 /\
    (forall tsid dp category,
        Put 6 tsid dp category w1
          = (Return (Some "Invalid bucket number!"%string), w1)) /\
    new_calls w1 (after (Get 6 6) w1)
      = [EvFetch 6 42 (snd (Fetch (storage after_put5) 6 42))].
Proof.
  apply (X12_set_data_block_forward (Value := Z) after_put5 6 42); by_eval.
Defined.

Lemma X13_put_then_get_witness :
  exists out w2,
    Get 4 7 after_put7 = (Return (out, None), w2) /\
    last out = Some {| Data := Series_ReadData (stream_ (ts after_put7));
                       Count := count_ (ts after_put7) |}.
Proof.
  apply (X13_put_then_get after_put5 after_put7 7 1 (point 200 2) None 4 7);
    [by_eval | by_eval | vm_compute; reflexivity | by_eval | by_eval].
Defined.

Lemma X14_put_then_has_data_points_witness :
  HasDataPoints 200 after_put7 = (Return true, after_put7).
Proof.
  apply (X14_put_then_has_data_points after_put5 after_put7 7 1 (point 200 2) None 200);
    [by_eval | by_eval | by_eval | vm_compute; reflexivity].
Defined.

Lemma X16_get_fetch_bound_witness :
  Z.of_nat (length (new_calls after_put8 (snd (Get 0 1000 after_put8))))
    <= Z.max 1 (NumBuckets (storage after_put8)) /\
  Z.of_nat (length (new_calls after_put8 (snd (Get 0 1000 after_put8))))
    <= Z.max 0 (1000 - 0 + 1).
Proof.
  apply (X16_get_fetch_bound after_put8 0 1000 (fst (Get 0 1000 after_put8))
           (snd (Get 0 1000 after_put8))); [by_eval | by_eval | apply pair_eta'].
Defined.

Lemma X17_zero_capacity_panics_witness :
  open 7 1 no_buckets5 = (Panics DivideByZero, no_buckets5) /\
  open 7 1 no_buckets5_put =
    (Panics DivideByZero,
     mkWorld (ts no_buckets5_put) (mkStore 0 [(5, [x64], 1)])
       (calls no_buckets5_put ++
          [EvStore (current_ (ts no_buckets5_put))
             (Stream (Bs (stream_ (ts no_buckets5_put))))
             (count_ (ts no_buckets5_put)) 1 (inl 1)])).
Proof.
  destruct (X17_zero_capacity_panics (BitStream := list (Z * Z)) (Value := Z)
              (BucketStorage := store)) as (Hempty & Hfull & _).
  split.
  - apply Hempty; by_eval.
  - apply (Hfull no_buckets5_put 7 1 (mkStore 0 [(5, [x64], 1)]) 1);
      [by_eval | by_eval | by_eval | reflexivity | reflexivity].
Defined.

Lemma X18_set_current_bucket_witness :
  SetCurrentBucket 3 1 idle5 = (Return None, idle5) /\
  current_ (ts idle5) = Z.max (current_ (ts fresh)) 5 /\
  SetCurrentBucket 5 2 idle5 = (Return None, idle5).
Proof.
  destruct (X18_set_current_bucket (BitStream := list (Z * Z)) (Value := Z)
              (BucketStorage := store)) as [Hnoop Hmax].
  split; [apply Hnoop; by_eval|].
  apply (Hmax fresh idle5 5 1 2); [by_eval | by_eval | vm_compute; reflexivity].
Defined.

Lemma X19_rotation_frame_witness :
  blocks_ (ts (snd (open 7 1 after_put5))) !! 1%nat = blocks_ (ts after_put5) !! 1%nat.
Proof.
  apply (X19_rotation_frame after_put5 (snd (open 7 1 after_put5)) 7 1 1%nat
           sample_stable_capacity);
    [by_eval | by_eval | by_eval | vm_compute; reflexivity |].
  intros j Hj. change (NumBuckets (storage after_put5)) with 3.
  assert (Hcases : j = 5 \/ j = 6) by (simpl in Hj; lia).
  destruct Hcases as [-> | ->]; vm_compute; lia.
Defined.

Lemma X21_put_shards_witness :
  Service.Put one_shard (Service.mkPutRequest [dp_for 2 20; dp_for 1 30])
    = (one_shard, (Service.mkPutResponse 0, Some "key not exit"%string)) /\
  Service.Put one_shard (Service.mkPutRequest ([dp_for 1 10] ++ dp_for 2 20 :: [dp_for 1 30]))
    = (fst (Service.Put one_shard (Service.mkPutRequest [dp_for 1 10])),
       (Service.mkPutResponse 1, Some "key not exit"%string)).
Proof.
  destruct (Service.X21_put_shards (BucketMap := list (bytes * Z)) (Value := Z))
    as (_ & Hhead & Hlater).
  split.
  - apply Hhead. reflexivity.
  - apply Hlater; reflexivity.
Defined.

End MoreOnSample.
